(** * streamlit-copilot-studio: citation normaliser and response-stream aggregator

    A shallow embedding of [copilot_client.py] and of the event loop of
    [app.py] ([process_response]), followed by the properties of the
    natural-language specification that were checked against it.

    Conventions of the embedding.
    - A Python [str] is the list of its Unicode code points ([list N]); the
      citation delimiters U+E200, U+E201, U+E202 are ordinary code points.
    - A Python [dict] whose iteration order is observable (the numbering
      registry of [clean_citations]) is an association list in insertion
      order; a [dict] used only through lookups and [update] (the citation
      metadata) is a [gmap].
    - An async generator is the list of the tuples it yields together with how
      it ended; the SDK event stream it reads is a [Transport].
    - Free-form payloads ([channel_data], [value], entities) are records with
      optional fields at the types the upstream service sends (JSON strings);
      the [isinstance(_, dict)] tests of the source are kept as a case
      distinction.
    - The debug dump to [/tmp/activities_debug.json] and the Streamlit
      rendering of the reasoning panel are not modelled. *)

From Stdlib Require Import NArith List Lia String Ascii DecimalString
  DecimalNat.
From stdpp Require Import base option list gmap sorting.
From Equations Require Import Equations.
From Equations.Prop Require Import Logic.

Set Default Proof Using "Type".

(** ** Text *)

Abbreviation str := (list N).

Module Text.

(** A literal of the source, all of whose characters are ASCII. *)
Definition lit (s : string) : str :=
  List.map N_of_ascii (list_ascii_of_string s).

Definition dquote : str := [34%N].
Definition newline : N := 10%N.

(** Python truthiness of a [str]. *)
Definition truthy (s : str) : bool :=
  match s with [] => false | _ :: _ => true end.

(** Truthiness of an optional string ([None] and [''] are falsy). *)
Definition truthy_opt (o : option str) : bool :=
  match o with Some s => truthy s | None => false end.

(** [f"{n}"] for a non-negative [int]. *)
Definition str_of_nat (n : nat) : str :=
  lit (NilEmpty.string_of_uint (Nat.to_uint n)).

(** [s.startswith(p)], returning what follows the prefix. *)
Fixpoint strip_prefix (p s : str) : option str :=
  match p, s with
  | [], _ => Some s
  | a :: p', b :: s' => if N.eqb a b then strip_prefix p' s' else None
  | _ :: _, [] => None
  end.

(** [sub in s]. *)
Fixpoint contains (sub s : str) : bool :=
  match strip_prefix sub s with
  | Some _ => true
  | None => match s with [] => false | _ :: s' => contains sub s' end
  end.

(** [c in s] for a single character. *)
Definition has_char (c : N) (s : str) : bool := existsb (N.eqb c) s.

(** [s.split(c)] for a one-character separator: the (never empty) list of
    the pieces between the occurrences of [c]. *)
Fixpoint split (c : N) (s : str) : list str :=
  match s with
  | [] => [[]]
  | x :: s' =>
      if N.eqb x c then [] :: split c s'
      else match split c s' with
           | p :: ps => (x :: p) :: ps
           | [] => [[x]]
           end
  end.

(** [parts[-1]] of a list of pieces. *)
Definition last_piece (parts : list str) : str := List.last parts [].

(** [str.lower()] on the ASCII letters. The only use is the test
    ['citation' in t.lower()]; the one non-ASCII character whose lower-case
    form contains a letter of that word (U+0130) yields that letter followed
    by U+0307, so it cannot take part in an occurrence of the word. *)
Definition lower_char (c : N) : N :=
  if (65 <=? c)%N && (c <=? 90)%N then (c + 32)%N else c.
Definition lower (s : str) : str := List.map lower_char s.

(** [str.isspace] on one code point, after CPython's whitespace table. *)
Definition is_space (c : N) : bool :=
  ((9 <=? c) && (c <=? 13) || (28 <=? c) && (c <=? 32)
   || (c =? 133) || (c =? 160) || (c =? 5760)
   || (8192 <=? c) && (c <=? 8202)
   || (c =? 8232) || (c =? 8233) || (c =? 8239) || (c =? 8287)
   || (c =? 12288))%N.

Fixpoint lstrip (s : str) : str :=
  match s with
  | c :: s' => if is_space c then lstrip s' else s
  | [] => []
  end.

(** [s.strip()]. *)
Definition strip (s : str) : str := rev (lstrip (rev (lstrip s))).

(** [sep.join(parts)]. *)
Fixpoint join (sep : str) (parts : list str) : str :=
  match parts with
  | [] => []
  | [p] => p
  | p :: rest => p ++ sep ++ join sep rest
  end.

Lemma strip_prefix_length p s r :
  strip_prefix p s = Some r -> length s = length p + length r.
Proof.
  revert s; induction p as [|a p IH]; intros [|b s]; simpl; intros H;
    try congruence.
  - inversion H; reflexivity.
  - inversion H; reflexivity.
  - destruct (N.eqb a b); [|congruence]. apply IH in H. lia.
Qed.

(** [s.replace(old, '')]: every non-overlapping occurrence of [old], found
    from the left, is deleted. With [old = ''] Python inserts the (empty)
    replacement between the characters, which leaves [s] as it is. *)
Equations? remove_all (old s : str) : str by wf (length s) lt :=
  remove_all [] s := s;
  remove_all (a :: old) [] := [];
  remove_all (a :: old) (c :: s)
    with inspect (strip_prefix (a :: old) (c :: s)) => {
    | exist _ (Some r) e := remove_all (a :: old) r;
    | exist _ None e := c :: remove_all (a :: old) s }.
Proof.
  pose proof (strip_prefix_length (a :: old) (c :: s) r e) as H.
  simpl in *. lia.
Qed.

End Text.

Import Text.


(** ** copilot_client.py: the citation normaliser *)

Module Normalizer.

(** The value [{'url': ..., 'title': ...}] recorded for a citation
    identifier; either key may be missing. *)
Record Meta := { meta_url : option str; meta_title : option str }.

(** An entry of the numbering registry [citations] of [clean_citations]:
    [{'num': ..., 'url': ..., 'title': ...}]. *)
Record Cite := { cite_num : nat; cite_url : str; cite_title : str }.

(** An entry of the returned [citations_by_num]:
    [{'id': ..., 'url': ..., 'title': ...}]. *)
Record Ref := { ref_id : str; ref_url : str; ref_title : str }.

(** The opening of a marker, [\ue200cite\ue202], and its closing
    character [\ue201]. *)
Definition cite_open : str := [57856%N] ++ lit "cite" ++ [57858%N].
Definition cite_close : N := 57857%N.

(** The rest of [(.+?)\ue201] once the first character of the group has been
    taken: the group is extended one character at a time ([.] does not match a
    newline) until the closing character is met. Returns the rest of the
    group and the text after the match. *)
Fixpoint lazy_group (s : str) : option (str * str) :=
  match s with
  | [] => None
  | c :: s' =>
      if N.eqb c cite_close then Some ([], s')
      else if N.eqb c newline then None
      else match lazy_group s' with
           | Some (g, r) => Some (c :: g, r)
           | None => None
           end
  end.

(** [(.+?)\ue201]: at least one character that is not a newline. *)
Definition group1 (s : str) : option (str * str) :=
  match s with
  | [] => None
  | c :: s' =>
      if N.eqb c newline then None
      else match lazy_group s' with
           | Some (g, r) => Some (c :: g, r)
           | None => None
           end
  end.

(** A match of [\ue200cite\ue202(.+?)\ue201] anchored at the start of [s]:
    [match.group(1)] and the text after the match. *)
Definition match_at (s : str) : option (str * str) :=
  match strip_prefix cite_open s with
  | Some r => group1 r
  | None => None
  end.

Lemma lazy_group_length s g r :
  lazy_group s = Some (g, r) -> length r < length s.
Proof.
  revert g; induction s as [|c s IH]; simpl; intros g H; [congruence|].
  destruct (N.eqb c cite_close).
  - inversion H; subst; lia.
  - destruct (N.eqb c newline); [congruence|].
    destruct (lazy_group s) as [[g' r']|]; [|congruence].
    inversion H; subst. specialize (IH _ eq_refl). lia.
Qed.

Lemma match_at_length s g r :
  match_at s = Some (g, r) -> length r < length s.
Proof.
  unfold match_at. destruct (strip_prefix cite_open s) as [t|] eqn:E;
    [|congruence].
  apply strip_prefix_length in E. unfold group1.
  destruct t as [|c t]; [congruence|].
  destruct (N.eqb c newline); [congruence|].
  destruct (lazy_group t) as [[g' r']|] eqn:L; [|congruence].
  intros H; inversion H; subst. apply lazy_group_length in L.
  simpl in *. lia.
Qed.

(** What [re.sub] sees in the text, from left to right: the characters it
    copies and the non-overlapping matches it hands to the callback. *)
Inductive token := Chr (c : N) | Marker (citation_id : str).

Equations? tokens (text : str) : list token by wf (length text) lt :=
  tokens [] := [];
  tokens (c :: s) with inspect (match_at (c :: s)) => {
    | exist _ (Some (g, r)) e := Marker g :: tokens r;
    | exist _ None e := Chr c :: tokens s }.
Proof.
  apply match_at_length in e. simpl in *. lia.
Qed.

(** [re.sub(pattern, repl, text)] for a callback [repl] that reads and
    updates a state [S] (the variables of the enclosing function). *)
Fixpoint sub_tokens {S : Type} (repl : str -> S -> str * S)
    (toks : list token) (st : S) : str * S :=
  match toks with
  | [] => ([], st)
  | Chr c :: rest =>
      let '(out, st') := sub_tokens repl rest st in (c :: out, st')
  | Marker g :: rest =>
      let '(piece, st1) := repl g st in
      let '(out, st2) := sub_tokens repl rest st1 in
      (piece ++ out, st2)
  end.

Definition re_sub {S : Type} (repl : str -> S -> str * S)
    (text : str) (st : S) : str * S :=
  sub_tokens repl (tokens text) st.

(** [citations.get(k)] on the registry. *)
Fixpoint registry_get (k : str) (citations : list (str * Cite))
    : option Cite :=
  match citations with
  | [] => None
  | (k', v) :: rest => if decide (k = k') then Some v else registry_get k rest
  end.

(** The link that replaces a marker in HTML mode. *)
Definition link_html (url : str) (num : nat) : str :=
  lit "<a href=" ++ dquote ++ url ++ dquote
  ++ lit " target=" ++ dquote ++ lit "_blank" ++ dquote
  ++ lit " style=" ++ dquote ++ lit "text-decoration:none;color:#0066cc;"
  ++ dquote ++ lit "><sup>[" ++ str_of_nat num ++ lit "]</sup></a>".

Definition plain_ref (num : nat) : str := lit "[" ++ str_of_nat num ++ lit "]".

(** What a marker is replaced by, given the number and url on record. *)
Definition render (use_html : bool) (url : str) (num : nat) : str :=
  if use_html && truthy url then link_html url num else plain_ref num.

(** [meta.get('url', '')] and [meta.get('title', f'Source {num}')] for
    [meta = citation_metadata.get(citation_id, {})]. *)
Definition seed_url (citation_metadata : gmap str Meta) (citation_id : str)
    : str :=
  match citation_metadata !! citation_id with
  | Some meta => default [] (meta_url meta)
  | None => []
  end.

Definition seed_title (citation_metadata : gmap str Meta) (citation_id : str)
    (num : nat) : str :=
  match citation_metadata !! citation_id with
  | Some meta => default (lit "Source " ++ str_of_nat num) (meta_title meta)
  | None => lit "Source " ++ str_of_nat num
  end.

(** The callback [replace_citation]; its state is the registry [citations]
    and the counter [citation_counter[0]]. *)
Definition replace_citation (use_html : bool)
    (citation_metadata : gmap str Meta) (citation_id : str)
    (st : list (str * Cite) * nat) : str * (list (str * Cite) * nat) :=
  let '(citations, citation_counter) := st in
  let '(cite_info, st') :=
    match registry_get citation_id citations with
    | Some cite_info => (cite_info, st)
    | None =>
        let num := S citation_counter in
        let cite_info :=
          {| cite_num := num;
             cite_url := seed_url citation_metadata citation_id;
             cite_title := seed_title citation_metadata citation_id num |} in
        (cite_info, (citations ++ [(citation_id, cite_info)], num))
    end in
  (render use_html (cite_url cite_info) (cite_num cite_info), st').

(** [clean_citations(text, use_html, citation_metadata)]. *)
Definition clean_citations (text : str) (use_html : bool)
    (citation_metadata : option (gmap str Meta)) : str * list (nat * Ref) :=
  if negb (truthy text) then (text, [])
  else
    let citation_metadata := default ∅ citation_metadata in
    let '(cleaned, (citations, _)) :=
      re_sub (replace_citation use_html citation_metadata) text ([], 0) in
    let citations_by_num :=
      List.map (fun '(k, v) =>
             (cite_num v,
              {| ref_id := k; ref_url := cite_url v;
                 ref_title := cite_title v |})) citations in
    (cleaned, citations_by_num).

(** [format_references_html(citations)], on the mapping returned by
    [clean_citations]. *)
Fixpoint refs_get (num : nat) (citations : list (nat * Ref)) : option Ref :=
  match citations with
  | [] => None
  | (k, v) :: rest => if decide (num = k) then Some v else refs_get num rest
  end.

Definition reference_line (num : nat) (cite : Ref) : str :=
  if truthy (ref_url cite) then
    lit "<a href=" ++ dquote ++ ref_url cite ++ dquote
    ++ lit " target=" ++ dquote ++ lit "_blank" ++ dquote
    ++ lit " style=" ++ dquote ++ lit "color:#0066cc;" ++ dquote
    ++ lit ">[" ++ str_of_nat num ++ lit "] " ++ ref_title cite
    ++ lit "</a><br>"
  else
    lit "<span>[" ++ str_of_nat num ++ lit "] " ++ ref_title cite
    ++ lit "</span><br>".

Definition format_references_html (citations : list (nat * Ref)) : str :=
  match citations with
  | [] => []
  | _ :: _ =>
      lit "<div style=" ++ dquote
      ++ lit "margin-top:1rem;padding-top:0.5rem;border-top:1px solid #ddd;font-size:0.9em;"
      ++ dquote ++ lit ">"
      ++ lit "<strong>References:</strong><br>"
      ++ concat
           (List.map
              (fun num =>
                 match refs_get num citations with
                 | Some cite => reference_line num cite
                 | None => []
                 end)
              (merge_sort Nat.le (List.map fst citations)))
      ++ lit "</div>"
  end.

End Normalizer.

Import Normalizer.

(** ** copilot_client.py: the client wrapper *)

Module Client.

(** [ActivityTypes] of the SDK, as far as [send_message] tells them apart. *)
Inductive ActivityTypes :=
  message | typing | event | end_of_conversation | other_type.

(** A free-form attribute or key that the source reads with a [{}] default
    and then tests with [isinstance(_, dict)]. [Unset]: the attribute is
    falsy, or the key is missing, and the source substitutes [{}]. *)
Inductive Bag (D : Type) := Unset | NotDict | Dict (d : D).
Arguments Unset {D}.
Arguments NotDict {D}.
Arguments Dict {D} d.

(** The keys of [channel_data] that are read. *)
Record ChannelData := { streamType : option str; chunkType : option str }.

(** One element of [search_results], when it is a dict. *)
Record SearchHit := {
  hit_Url : option str; hit_url : option str;
  hit_Name : option str; hit_name : option str;
  hit_SourceId : option str }.
Inductive ResultItem := HitDict (res : SearchHit) | HitOther.

(** [observation['search_result']] and [observation], when they are dicts. *)
Record SearchOutcome := { search_results : option (list ResultItem) }.
Record Observation := { search_result : Bag SearchOutcome }.

(** [reply.value] of an event activity, when it is a dict. *)
Record EventValue := {
  thought : option str;
  taskDialogId : option str;
  state : option str;
  observation : Bag Observation }.

(** The keys of an entity that are read. *)
Record EntityFields := {
  ent_type : option str;
  ent_at_id : option str; ent_id : option str;
  ent_url : option str; ent_Url : option str; ent_uri : option str;
  ent_sameAs : option str;
  ent_name : option str; ent_title : option str; ent_Name : option str }.

(** An entity: an object with a [__dict__], a dict, or something else. *)
Inductive Entity :=
  EntObject (vars : EntityFields) | EntDict (ent : EntityFields) | EntOther.

(** An activity of the SDK. [suggested_actions] holds the titles of
    [reply.suggested_actions.actions]; [conversation] holds
    [activity.conversation.id]. *)
Record Activity := {
  type : ActivityTypes;
  text : option str;
  channel_data : Bag ChannelData;
  entities : option (list Entity);
  value : Bag EventValue;
  suggested_actions : option (list str);
  conversation : option str }.

(** The async iterator handed out by the SDK: it delivers activities and
    then is exhausted, or fails with a transport error. *)
Inductive Transport :=
  Exhausted | Broken | Deliver (reply : Activity) (rest : Transport).

(** The SDK's [CopilotClient], by the two calls the wrapper makes. *)
Record CopilotClient := {
  sdk_start_conversation : Transport;
  sdk_ask_question : str -> str -> Transport }.

(** [CopilotStudioClient]; the connection settings play no part. *)
Record CopilotStudioClient := {
  _client : CopilotClient;
  _conversation_id : option str }.

(** [__init__]. *)
Definition init (sdk : CopilotClient) : CopilotStudioClient :=
  {| _client := sdk; _conversation_id := None |}.

(** The payloads of the yielded tuples. *)
Record ThoughtInfo := { th_text : str; th_task : str; th_state : str }.
Record SearchInfo := {
  index : nat; url : str; title : str; source_id : str }.

(** The tuples [send_message] yields, by their tag: ['status'], ['thought'],
    ['search_result'], ['content'], ['final_content'], ['citations'],
    ['suggestion']. *)
Inductive Event :=
| Status (msg : str)
| Thought (t : ThoughtInfo)
| SearchResult (sr : SearchInfo)
| Content (chunk : str)
| FinalContent (full : str)
| Citations (citation_map : gmap str Meta)
| Suggestion (actions : str).

(** How an async generator or coroutine ends: normally (for a generator,
    [StopAsyncIteration]: the sequence is closed), or by an exception
    that propagates to the caller. *)
Inductive Ending := StopAsyncIteration | Propagated.

(** The outcome of draining the generator of one [send_message] call:
    the tuples yielded, how it ended, what is left unread in the transport
    ([None] if [ask_question] was never called), and the client object
    afterwards. *)
Record Run := {
  yielded : list Event;
  ending : Ending;
  unread : option Transport;
  self_after : CopilotStudioClient }.

(** [a or b or ... or ''] over [dict.get] results. *)
Fixpoint first_truthy (candidates : list (option str)) : str :=
  match candidates with
  | [] => []
  | Some s :: rest => if truthy s then s else first_truthy rest
  | None :: rest => first_truthy rest
  end.

Definition colon : N := 58%N.
Definition dot : N := 46%N.

(** Lines 170-175: the tool name extracted from [taskDialogId]. *)
Definition task_name_of (task_id : str) : str :=
  let task_name :=
    if has_char colon task_id then last_piece (split colon task_id)
    else if has_char dot task_id then last_piece (split dot task_id)
    else task_id in
  remove_all (lit "-InvokeServer") (remove_all (lit "P:") task_name).

(** [for idx, res in enumerate(results)], from position [idx] on. *)
Fixpoint enumerate_results (idx : nat) (results : list ResultItem)
    : list Event :=
  match results with
  | [] => []
  | HitDict res :: rest =>
      SearchResult
        {| index := idx;
           url := first_truthy [hit_Url res; hit_url res];
           title := first_truthy [hit_Name res; hit_name res];
           source_id := first_truthy [hit_SourceId res] |}
      :: enumerate_results (S idx) rest
  | HitOther :: rest => enumerate_results (S idx) rest
  end.

Definition empty_value : EventValue :=
  {| thought := None; taskDialogId := None; state := None;
     observation := Unset |}.
Definition empty_observation : Observation := {| search_result := Unset |}.
Definition empty_outcome : SearchOutcome := {| search_results := None |}.
Definition empty_channel_data : ChannelData :=
  {| streamType := None; chunkType := None |}.

(** [bag or {}] followed by [isinstance(_, dict)]. *)
Definition as_dict {D : Type} (empty : D) (b : Bag D) : option D :=
  match b with
  | Unset => Some empty
  | NotDict => None
  | Dict d => Some d
  end.

(** The branch [reply.type == ActivityTypes.event]. *)
Definition on_event (reply : Activity) : list Event :=
  match as_dict empty_value (value reply) with
  | None => []
  | Some value =>
      (if truthy_opt (thought value) then
         [Thought {| th_text := default [] (thought value);
                     th_task := task_name_of (default [] (taskDialogId value));
                     th_state := default [] (state value) |}]
       else [])
      ++
      match as_dict empty_observation (observation value) with
      | None => []
      | Some observation =>
          match as_dict empty_outcome (search_result observation) with
          | None => []
          | Some search_result =>
              enumerate_results 0 (default [] (search_results search_result))
          end
      end
  end.

(** The branch [reply.type == ActivityTypes.typing]. *)
Definition on_typing (reply : Activity) : list Event :=
  match as_dict empty_channel_data (channel_data reply) with
  | None => []
  | Some channel_data =>
      if bool_decide (streamType channel_data = Some (lit "informative"))
         && truthy_opt (text reply)
      then [Status (default [] (text reply))]
      else if bool_decide (chunkType channel_data = Some (lit "delta"))
              && truthy_opt (text reply)
      then [Content (default [] (text reply))]
      else []
  end.

(** The body of [for ent in entities] in the message branch. *)
Definition add_entity (citation_map : gmap str Meta) (ent : Entity)
    : gmap str Meta :=
  match ent with
  | EntOther => citation_map
  | EntObject ent_dict | EntDict ent_dict =>
      let ent_type := default [] (ent_type ent_dict) in
      if contains (lit "Claim") ent_type
         || contains (lit "citation") (lower ent_type)
      then
        let cite_id := first_truthy [ent_at_id ent_dict; ent_id ent_dict] in
        if truthy cite_id then
          <[cite_id :=
              {| meta_url :=
                   Some (first_truthy [ent_url ent_dict; ent_Url ent_dict;
                                       ent_uri ent_dict; ent_sameAs ent_dict]);
                 meta_title :=
                   Some (first_truthy [ent_name ent_dict; ent_title ent_dict;
                                       ent_Name ent_dict]) |}]> citation_map
        else citation_map
      else citation_map
  end.

(** The branch [reply.type == ActivityTypes.message]. *)
Definition on_message (reply : Activity) : list Event :=
  let citation_map :=
    fold_left add_entity (default [] (entities reply)) ∅ in
  (if decide (citation_map = ∅) then [] else [Citations citation_map])
  ++
  (if truthy_opt (text reply) then
     let stream_type :=
       match as_dict empty_channel_data (channel_data reply) with
       | Some channel_data => streamType channel_data
       | None => None
       end in
     if bool_decide (stream_type = Some (lit "final"))
        || bool_decide (stream_type = None)
     then [FinalContent (default [] (text reply))]
     else []
   else [])
  ++
  match suggested_actions reply with
  | Some actions =>
      if decide (actions = []) then []
      else [Suggestion (join (lit ", ") actions)]
  | None => []
  end.

(** One turn of [async for reply in ...]: the tuples yielded for [reply]
    and whether the loop is left by [break]. *)
Definition on_reply (reply : Activity) : list Event * bool :=
  match type reply with
  | event => (on_event reply, false)
  | typing => (on_typing reply, false)
  | message => (on_message reply, false)
  | end_of_conversation => ([Status (lit "Conversation ended.")], true)
  | other_type => ([], false)
  end.

(** The loop of [send_message] over the stream of [ask_question]. *)
Fixpoint pump (self : CopilotStudioClient) (replies : Transport) : Run :=
  match replies with
  | Exhausted =>
      {| yielded := []; ending := StopAsyncIteration;
         unread := Some Exhausted; self_after := self |}
  | Broken =>
      {| yielded := []; ending := Propagated;
         unread := Some Broken; self_after := self |}
  | Deliver reply rest =>
      let '(out, stop) := on_reply reply in
      if stop then
        {| yielded := out; ending := StopAsyncIteration;
           unread := Some rest; self_after := self |}
      else
        let run := pump self rest in
        {| yielded := out ++ yielded run; ending := ending run;
           unread := unread run; self_after := self_after run |}
  end.

(** [send_message(message)], drained to its end. *)
Definition send_message (self : CopilotStudioClient) (message : str) : Run :=
  match _conversation_id self with
  | Some conversation_id =>
      if truthy conversation_id then
        pump self (sdk_ask_question (_client self) message conversation_id)
      else
        {| yielded := [Content (lit "Error: No active conversation.")];
           ending := StopAsyncIteration; unread := None;
           self_after := self |}
  | None =>
      {| yielded := [Content (lit "Error: No active conversation.")];
         ending := StopAsyncIteration; unread := None; self_after := self |}
  end.

(** The loop of [start_conversation]: the text gathered so far and the
    client object are threaded through the activities. *)
Fixpoint greet (replies : Transport) (welcome_text : str)
    (self : CopilotStudioClient) : Ending * str * CopilotStudioClient :=
  match replies with
  | Exhausted => (StopAsyncIteration, welcome_text, self)
  | Broken => (Propagated, welcome_text, self)
  | Deliver activity rest =>
      let welcome_text :=
        if truthy_opt (text activity)
        then welcome_text ++ default [] (text activity) ++ [newline]
        else welcome_text in
      let self :=
        match conversation activity with
        | Some id =>
            {| _client := _client self; _conversation_id := Some id |}
        | None => self
        end in
      greet rest welcome_text self
  end.

(** [start_conversation()]: the returned value ([None] inside [Some] is
    Python's [None]; the outer [None] stands for a propagated transport
    error) and the client object afterwards. *)
Definition start_conversation (self : CopilotStudioClient)
    : option (option str) * CopilotStudioClient :=
  let '(e, welcome_text, self') :=
    greet (sdk_start_conversation (_client self)) [] self in
  match e with
  | Propagated => (None, self')
  | StopAsyncIteration =>
      (Some (if truthy welcome_text then Some (strip welcome_text) else None),
       self')
  end.

(** The property [conversation_id]. *)
Definition conversation_id (self : CopilotStudioClient) : option str :=
  _conversation_id self.

End Client.

Import Client.

(** ** app.py: the consumer loop of [process_response] *)

Module App.

(** The local variables of [process_response], with the text last shown
    in the two placeholders it writes to. *)
Record Turn := {
  content_parts : list str;
  suggestions : option str;
  citation_metadata : gmap str Meta;
  search_results : list SearchInfo;
  thoughts : list ThoughtInfo;
  got_streaming : bool;
  status_placeholder : option str;
  content_placeholder : option str }.

Definition start_of_turn : Turn :=
  {| content_parts := []; suggestions := None; citation_metadata := ∅;
     search_results := []; thoughts := []; got_streaming := false;
     status_placeholder := None; content_placeholder := None |}.

(** [''.join(content_parts)]. *)
Definition raw_content (st : Turn) : str := concat (content_parts st).

(** How the loop over the tuples is left, with the locals at that point. *)
Inductive Loop := Completed (st : Turn) | Aborted (st : Turn).

Definition reached (loop : Loop) : Turn :=
  match loop with Completed st | Aborted st => st end.

Definition completed (loop : Loop) : bool :=
  match loop with Completed _ => true | Aborted _ => false end.

(** The exceptions that leave [process_response]. *)
Inductive Failure := ValueError | TransportError.

(** The outcome of [process_response]. *)
Inductive Response :=
| Returned (cleaned_text : str) (citations : list (nat * Ref))
    (suggestions : option str)
| Raised (error : Failure) (locals : Turn).

Section WithDigits.

(** The interpreter's table of Unicode decimal digits (category Nd) with
    their values, which both [\d] and [int] consult. *)
Variable decimal : N -> option N.

(** [$] without [re.MULTILINE]: at the end of the string, or just before a
    newline that ends it. *)
Definition at_dollar (s : str) : bool :=
  match s with
  | [] => true
  | [c] => N.eqb c newline
  | _ => false
  end.

(** [\d*$] against all of [s], greedily: the values of the digits taken. *)
Fixpoint digits_to_end (s : str) : option (list N) :=
  match s with
  | [] => Some []
  | c :: s' =>
      match decimal c with
      | Some d =>
          match digits_to_end s' with
          | Some ds => Some (d :: ds)
          | None => if at_dollar s then Some [] else None
          end
      | None => if at_dollar s then Some [] else None
      end
  end.

(** [search(\d+)$] anchored at the start of [s]: the digits of group 1. *)
Definition search_at (s : str) : option (list N) :=
  match strip_prefix (lit "search") s with
  | Some r =>
      match digits_to_end r with
      | Some (d :: ds) => Some (d :: ds)
      | _ => None
      end
  | None => None
  end.

(** [re.search(r'search(\d+)$', s)]: the leftmost match. *)
Fixpoint re_search (s : str) : option (list N) :=
  match search_at s with
  | Some ds => Some ds
  | None => match s with [] => None | _ :: s' => re_search s' end
  end.

(** The interpreter's limit on the number of digits of a string that
    [int] converts ([sys.int_info.default_max_str_digits]). *)
Definition int_max_str_digits : N := 4300%N.

(** [int(match.group(1))] on the digits of the group: their value, or
    [None] for the [ValueError] raised when there are more digits than the
    limit. *)
Definition int_of_digits (ds : list N) : option N :=
  if (N.of_nat (length ds) <=? int_max_str_digits)%N
  then Some (fold_left (fun acc d => 10 * acc + d)%N ds 0%N)
  else None.

(** [for sr in search_results: if sr.get('index') == idx: ... break]. *)
Definition first_with_index (idx : N) (search_results : list SearchInfo)
    : option SearchInfo :=
  List.find (fun sr => N.eqb (N.of_nat (index sr)) idx) search_results.

(** The body of [for cite_id, cite_info in msg_content.items()]: the record
    [cite_info] after the loop body has run on it, or [None] when the body
    raises [ValueError] ([int] is reached only for a match with no url). *)
Definition cross_link (search_results : list SearchInfo) (cite_id : str)
    (cite_info : Meta) : option Meta :=
  match re_search cite_id with
  | Some digits =>
      if negb (truthy_opt (meta_url cite_info)) then
        match int_of_digits digits with
        | Some idx =>
            match first_with_index idx search_results with
            | Some sr =>
                if negb (truthy_opt (meta_title cite_info)) then
                  Some {| meta_url := Some (url sr);
                          meta_title := Some (title sr) |}
                else
                  Some {| meta_url := Some (url sr);
                          meta_title := meta_title cite_info |}
            | None => Some cite_info
            end
        | None => None
        end
      else Some cite_info
  | None => Some cite_info
  end.

(** The body of [async for msg_type, msg_content in ...]: the locals after
    it, or [None] when it raises ([ValueError], in the citations branch,
    before anything is assigned). *)
Definition on_tuple (st : Turn) (ev : Event) : option Turn :=
  match ev with
  | Status msg_content =>
      Some
      {| content_parts := content_parts st; suggestions := suggestions st;
         citation_metadata := citation_metadata st;
         search_results := search_results st; thoughts := thoughts st;
         got_streaming := got_streaming st;
         status_placeholder := Some (lit "_" ++ msg_content ++ lit "_");
         content_placeholder := content_placeholder st |}
  | Thought msg_content =>
      Some
      {| content_parts := content_parts st; suggestions := suggestions st;
         citation_metadata := citation_metadata st;
         search_results := search_results st;
         thoughts := thoughts st ++ [msg_content];
         got_streaming := got_streaming st;
         status_placeholder := status_placeholder st;
         content_placeholder := content_placeholder st |}
  | SearchResult msg_content =>
      Some
      {| content_parts := content_parts st; suggestions := suggestions st;
         citation_metadata := citation_metadata st;
         search_results := search_results st ++ [msg_content];
         thoughts := thoughts st;
         got_streaming := got_streaming st;
         status_placeholder := status_placeholder st;
         content_placeholder := content_placeholder st |}
  | Content msg_content =>
      let content_parts := content_parts st ++ [msg_content] in
      let accumulated := concat content_parts in
      Some
      {| content_parts := content_parts; suggestions := suggestions st;
         citation_metadata := citation_metadata st;
         search_results := search_results st; thoughts := thoughts st;
         got_streaming := true;
         status_placeholder := status_placeholder st;
         content_placeholder :=
           Some (fst (clean_citations accumulated false None)) |}
  | FinalContent msg_content =>
      if negb (got_streaming st) then
        Some
        {| content_parts := [msg_content]; suggestions := suggestions st;
           citation_metadata := citation_metadata st;
           search_results := search_results st; thoughts := thoughts st;
           got_streaming := got_streaming st;
           status_placeholder := status_placeholder st;
           content_placeholder :=
             Some (fst (clean_citations msg_content false None)) |}
      else Some st
  | Citations msg_content =>
      if decide (map_Forall
                   (fun cite_id cite_info =>
                      is_Some (cross_link (search_results st) cite_id
                                 cite_info))
                   msg_content)
      then
        let msg_content :=
          map_imap (cross_link (search_results st)) msg_content in
        Some
        {| content_parts := content_parts st; suggestions := suggestions st;
           citation_metadata := msg_content ∪ citation_metadata st;
           search_results := search_results st; thoughts := thoughts st;
           got_streaming := got_streaming st;
           status_placeholder := status_placeholder st;
           content_placeholder := content_placeholder st |}
      else None
  | Suggestion msg_content =>
      Some
      {| content_parts := content_parts st;
         suggestions := Some msg_content;
         citation_metadata := citation_metadata st;
         search_results := search_results st; thoughts := thoughts st;
         got_streaming := got_streaming st;
         status_placeholder := status_placeholder st;
         content_placeholder := content_placeholder st |}
  end.

(** The loop over the tuples of one turn: it runs to the end of the
    tuples, or is left at the first tuple whose body raises, with the
    locals as they were before that tuple. *)
Fixpoint consume (events : list Event) (st : Turn) : Loop :=
  match events with
  | [] => Completed st
  | ev :: rest =>
      match on_tuple st ev with
      | Some st' => consume rest st'
      | None => Aborted st
      end
  end.

(** [process_response()] for the prompt sent through [client]: the triple
    it returns, or the exception that propagates out of it, with the
    locals reached (they decide what the placeholders show). The tuples
    are consumed as they are yielded, so a [ValueError] of the loop body
    comes before a failure of the transport. *)
Definition process_response (client : CopilotStudioClient) (prompt : str)
    : Response :=
  let run := send_message client prompt in
  match consume (yielded run) start_of_turn with
  | Aborted st => Raised ValueError st
  | Completed st =>
      match ending run with
      | Propagated => Raised TransportError st
      | StopAsyncIteration =>
          let '(cleaned_text, citations) :=
            clean_citations (raw_content st) true
              (Some (citation_metadata st)) in
          let cleaned_text :=
            match citations with
            | [] => cleaned_text
            | _ :: _ => cleaned_text ++ format_references_html citations
            end in
          Returned cleaned_text citations (suggestions st)
      end
  end.

End WithDigits.

(** The ASCII digits, which every digit table contains. *)
Definition ascii_decimal (c : N) : option N :=
  if (48 <=? c)%N && (c <=? 57)%N then Some (c - 48)%N else None.

Definition has_ascii_digits (decimal : N -> option N) : Prop :=
  forall c, (48 <= c <= 57)%N -> decimal c = Some (c - 48)%N.

End App.

Import App.

(** * Vocabulary of the specification

    Notions the claims are worded in, defined on their own so that the
    model can be compared with them. *)

Module NormalizerSpec.

(** The identifiers of the markers of a text, in the order in which they
    occur, with repetitions. *)
Definition markers (text : str) : list str :=
  omap (fun t => match t with Marker g => Some g | Chr _ => None end)
       (tokens text).

(** The distinct elements of a list, each at the place of its first
    occurrence. *)
Fixpoint first_seen (ids : list str) : list str :=
  match ids with
  | [] => []
  | g :: rest => g :: filter (fun g' => g' ≠ g) (first_seen rest)
  end.

(** The 0-based position of the first occurrence of [g] in [l]
    ([length l] when there is none). *)
Fixpoint position (g : str) (l : list str) : nat :=
  match l with
  | [] => 0
  | g' :: rest => if decide (g = g') then 0 else S (position g rest)
  end.

(** The number the specification gives to an identifier: the 1-based
    position of its first occurrence among the distinct identifiers. *)
Definition number_of (text : str) (g : str) : nat :=
  S (position g (first_seen (markers text))).

(** The delimiters of a marker, by their code points: U+E200, the word
    [cite] and U+E202 open it, U+E201 closes it; and the line feed, which
    the identifier cannot contain. *)
Definition opening : str := [57856; 99; 105; 116; 101; 57858]%N.
Definition closing : N := 57857%N.
Definition line_feed : N := 10%N.

(** An identifier as the lazy group [(.+?)] takes it: a first character
    that is not a line feed, then characters that are neither a line feed
    nor the closing character. *)
Definition shortest_id (g : str) : Prop :=
  ∃ c g', g = c :: g' ∧ c ≠ line_feed ∧ (line_feed ∉ g') ∧ (closing ∉ g').

(** A marker starts the text [s]: the opening delimiter, at least one
    character, none of them a line feed, and the closing character. *)
Definition marker_starts (s : str) : Prop :=
  ∃ g r, g ≠ [] ∧ (line_feed ∉ g) ∧ s = opening ++ g ++ closing :: r.

(** The reading of a text from left to right into markers and single
    characters: a marker is taken wherever one starts, with the shortest
    identifier, and the reading goes on after it; a character is copied
    only where no marker starts. *)
Inductive scans : str -> list token -> Prop :=
| scans_end : scans [] []
| scans_marker g r toks :
    shortest_id g → scans r toks →
    scans (opening ++ g ++ closing :: r) (Marker g :: toks)
| scans_char c s toks :
    ¬ marker_starts (c :: s) → scans s toks →
    scans (c :: s) (Chr c :: toks).

(** The number a string of ASCII digits denotes, by the parser of the
    standard library. *)
Definition unlit (s : str) : string :=
  string_of_list_ascii (List.map ascii_of_N s).

Definition nat_of_str (s : str) : option nat :=
  option_map Nat.of_uint (NilEmpty.uint_of_string (unlit s)).

(** A token list with every marker replaced by [f] of its identifier. *)
Definition spliced (f : str -> str) (toks : list token) : str :=
  concat (List.map (fun t => match t with Chr c => [c] | Marker g => f g end)
                   toks).

(** The entries numbered from [k + 1] on for the identifiers [ids]. *)
Fixpoint registry_from (md : gmap str Meta) (k : nat) (ids : list str)
    : list (str * Cite) :=
  match ids with
  | [] => []
  | g :: rest =>
      (g, {| cite_num := S k; cite_url := seed_url md g;
             cite_title := seed_title md g (S k) |})
      :: registry_from md (S k) rest
  end.

(** The registry and counter reached after the identifiers [pre] have been
    handed to the callback. *)
Definition state_after (md : gmap str Meta) (pre : list str)
    : list (str * Cite) * nat :=
  (registry_from md 0 (first_seen pre), length (first_seen pre)).

(** The returned mapping for the identifiers [ids], numbered from [k + 1]. *)
Fixpoint numbered (md : gmap str Meta) (k : nat) (ids : list str)
    : list (nat * Ref) :=
  match ids with
  | [] => []
  | g :: rest =>
      (S k, {| ref_id := g; ref_url := seed_url md g;
               ref_title := seed_title md g (S k) |})
      :: numbered md (S k) rest
  end.

End NormalizerSpec.

Import NormalizerSpec.

Module ClientSpec.

(** The stream that delivers the activities [acts] and then goes on as [t]. *)
Fixpoint deliver_all (acts : list Activity) (t : Transport) : Transport :=
  match acts with
  | [] => t
  | a :: rest => Deliver a (deliver_all rest t)
  end.

(** The tuples yielded for a list of activities none of which ends the
    conversation. *)
Definition tuples_for (acts : list Activity) : list Event :=
  concat (List.map (fun a => fst (on_reply a)) acts).

(** The non-empty texts of a list of activities, in order. *)
Definition texts (acts : list Activity) : list str :=
  omap (fun a => if truthy_opt (text a) then text a else None) acts.

(** The conversation identifiers carried by a list of activities, in order. *)
Definition conversation_ids (acts : list Activity) : list str :=
  omap conversation acts.

(** Every text on a line of its own. *)
Definition lines (ts : list str) : str :=
  concat (List.map (fun t => t ++ [newline]) ts).

(** The substring after the last occurrence of [c]: the longest suffix
    without [c]. *)
Fixpoint until (c : N) (s : str) : str :=
  match s with
  | [] => []
  | x :: s' => if N.eqb x c then [] else x :: until c s'
  end.

Definition after_last (c : N) (s : str) : str := rev (until c (rev s)).

(** The part of a task identifier the label is made from: what follows the
    last colon if there is a colon, else what follows the last dot if there
    is a dot, else the identifier. *)
Definition task_base (task_id : str) : str :=
  if has_char colon task_id then after_last colon task_id
  else if has_char dot task_id then after_last dot task_id
  else task_id.

(** [s.removeprefix(p)] and [s.removesuffix(p)]. *)
Definition removeprefix (p s : str) : str :=
  match strip_prefix p s with Some r => r | None => s end.

Definition removesuffix (p s : str) : str :=
  rev (removeprefix (rev p) (rev s)).

(** The label as the specification words it: the prefix marker and the
    suffix marker stripped from the base. *)
Definition task_label_as_specified (task_id : str) : str :=
  removesuffix (lit "-InvokeServer") (removeprefix (lit "P:") (task_base task_id)).

End ClientSpec.

Import ClientSpec.

Module AppSpec.

(** The search results among the tuples of a turn, in order. *)
Definition search_results_of (events : list Event) : list SearchInfo :=
  omap (fun e => match e with SearchResult sr => Some sr | _ => None end)
       events.

(** Whether a ['content'] tuple is among the tuples. *)
Definition has_content (events : list Event) : bool :=
  existsb (fun e => match e with Content _ => true | _ => false end) events.

(** The index an identifier stands for in the cross-linking: it matches
    [search(\d+)$] and its digits are few enough for [int]. *)
Definition search_index (decimal : N -> option N) (cite_id : str)
    : option N :=
  re_search decimal cite_id ≫= int_of_digits.

(** The record a citation gets from the search result found for it. *)
Definition linked_to (sr : SearchInfo) (cite_info : Meta) : Meta :=
  {| meta_url := Some (url sr);
     meta_title :=
       if truthy_opt (meta_title cite_info) then meta_title cite_info
       else Some (title sr) |}.

End AppSpec.

Import AppSpec.

(** ** Readings of the specification that the code does not satisfy *)

(** C1 as stated: a later entry for an identifier already in the table
    never overwrites a non-empty url or title. *)
Definition merge_never_overwrites (decimal : N -> option N) : Prop :=
  ∀ (before : list Event) (m : gmap str Meta) (cite_id : str)
    (st st' : Turn) (old new : Meta),
    consume decimal before start_of_turn = Completed st →
    consume decimal (before ++ [Citations m]) start_of_turn = Completed st' →
    citation_metadata st !! cite_id = Some old →
    citation_metadata st' !! cite_id = Some new →
    (truthy_opt (meta_url old) = true → meta_url new = meta_url old)
    ∧ (truthy_opt (meta_title old) = true → meta_title new = meta_title old).

(** C5 as stated: the identifier recorded by [start_conversation] is the
    first one seen in the stream. *)
Definition records_first_seen_id : Prop :=
  ∀ (sdk : CopilotClient) (acts : list Activity) (first : str),
    sdk_start_conversation sdk = deliver_all acts Exhausted →
    head (conversation_ids acts) = Some first →
    _conversation_id (snd (start_conversation (init sdk))) = Some first.

(** C6 as stated: at an end-of-conversation activity the status tuple is
    followed by one more tuple, the end-of-turn marker. *)
Definition end_of_turn_follows_status : Prop :=
  ∀ (self : CopilotStudioClient) (message conversation_id : str)
    (before : list Activity) (reply : Activity) (rest : Transport),
    _conversation_id self = Some conversation_id →
    truthy conversation_id = true →
    sdk_ask_question (_client self) message conversation_id
      = deliver_all before (Deliver reply rest) →
    Forall (fun a => type a ≠ end_of_conversation) before →
    type reply = end_of_conversation →
    ∃ end_of_turn,
      yielded (send_message self message)
      = tuples_for before
        ++ [Status (lit "Conversation ended."); end_of_turn].

(** C7 as stated: a citation whose identifier ends in ["search{N}"] and
    whose url is empty takes both the url and the title of the search
    result with index [N] seen earlier in the turn. *)
Definition cross_link_copies_url_and_title (decimal : N -> option N) : Prop :=
  ∀ (before : list Event) (m : gmap str Meta) (cite_id : str)
    (cite_info : Meta) (n : N) (sr : SearchInfo) (st' : Turn),
    m !! cite_id = Some cite_info →
    truthy_opt (meta_url cite_info) = false →
    search_index decimal cite_id = Some n →
    first_with_index n (search_results_of before) = Some sr →
    consume decimal (before ++ [Citations m]) start_of_turn = Completed st' →
    citation_metadata st' !! cite_id
    = Some {| meta_url := Some (url sr); meta_title := Some (title sr) |}.

(** C8 as stated: the label is the base with the prefix marker ["P:"] and
    the suffix marker ["-InvokeServer"] stripped. *)
Definition label_strips_prefix_and_suffix : Prop :=
  ∀ task_id : str, task_name_of task_id = task_label_as_specified task_id.

(** ** Sample inputs *)

Module Samples.

(** A bare activity of a given type and text. *)
Definition activity (t : ActivityTypes) (txt : option str) : Activity :=
  {| type := t; text := txt; channel_data := Unset; entities := None;
     value := Unset; suggested_actions := None; conversation := None |}.

(** A greeting activity that carries a conversation identifier. *)
Definition hello (txt cid : str) : Activity :=
  {| type := message; text := Some txt; channel_data := Unset;
     entities := None; value := Unset; suggested_actions := None;
     conversation := Some cid |}.

(** A streamed chunk of the answer. *)
Definition delta (txt : str) : Activity :=
  {| type := typing; text := Some txt;
     channel_data :=
       Dict {| streamType := Some (lit "streaming");
               chunkType := Some (lit "delta") |};
     entities := None; value := Unset; suggested_actions := None;
     conversation := None |}.

(** A reasoning step for the task [task_id]. *)
Definition reasoning (txt task_id : str) : Activity :=
  {| type := event; text := None; channel_data := Unset; entities := None;
     value :=
       Dict {| thought := Some txt; taskDialogId := Some task_id;
               state := Some (lit "completed"); observation := Unset |};
     suggested_actions := None; conversation := None |}.

(** An SDK client with fixed streams. *)
Definition sdk (greeting answer : Transport) : CopilotClient :=
  {| sdk_start_conversation := greeting;
     sdk_ask_question := fun _ _ => answer |}.

(** The text of the end-to-end scenarios of the specification. *)
Definition answer_text : str :=
  lit "Answer" ++ cite_open ++ lit "turn1search0" ++ [cite_close]
  ++ lit " more" ++ cite_open ++ lit "turn1search0" ++ [cite_close]
  ++ lit ".".

(** A client whose greeting carries two conversation identifiers. *)
Definition two_ids_sdk : CopilotClient :=
  sdk (Deliver (hello (lit "Hi") (lit "conv-A"))
         (Deliver (hello (lit "there") (lit "conv-B")) Exhausted))
      Exhausted.

(** A client whose answer ends the conversation before the stream ends. *)
Definition ended_client : CopilotStudioClient :=
  {| _client :=
       sdk Exhausted
         (Deliver (delta (lit "Bye"))
            (Deliver (activity end_of_conversation None)
               (Deliver (delta (lit "never read")) Broken)));
     _conversation_id := Some (lit "conv-1") |}.

Definition blank_title_text : str :=
  lit "See" ++ cite_open ++ lit "doc7" ++ [cite_close].

Definition blank_title_metadata : gmap str Meta :=
  {[ lit "doc7" := {| meta_url := Some []; meta_title := Some [] |} ]}.

Definition first_record : gmap str Meta :=
  {[ lit "doc7" := {| meta_url := Some (lit "https://a");
                      meta_title := Some (lit "A") |} ]}.

Definition second_record : gmap str Meta :=
  {[ lit "doc7" := {| meta_url := Some (lit "https://b");
                      meta_title := Some (lit "B") |} ]}.

Definition found_source : SearchInfo :=
  {| index := 0; url := lit "https://x"; title := lit "X"; source_id := [] |}.

Definition titled_citation : gmap str Meta :=
  {[ lit "turn1search0" := {| meta_url := Some [];
                              meta_title := Some (lit "Doc") |} ]}.

Definition untitled_citation : gmap str Meta :=
  {[ lit "turn1search0" := {| meta_url := Some []; meta_title := Some [] |} ]}.

End Samples.

Import Samples.

(** * Lemmas *)

Module NormalizerFacts.

Lemma registry_from_app md k a b :
  registry_from md k (a ++ b)
  = registry_from md k a ++ registry_from md (k + length a) b.
Proof.
  revert k; induction a as [|g a IH]; intros k; simpl.
  - by rewrite Nat.add_0_r.
  - rewrite IH. do 3 f_equal. lia.
Qed.

Lemma registry_get_from md g k ids :
  registry_get g (registry_from md k ids)
  = if decide (g ∈ ids)
    then Some {| cite_num := S (k + position g ids);
                 cite_url := seed_url md g;
                 cite_title := seed_title md g (S (k + position g ids)) |}
    else None.
Proof.
  revert k; induction ids as [|g' ids IH]; intros k; simpl.
  - destruct (decide (g ∈ [])) as [H|H]; [by apply elem_of_nil in H|done].
  - destruct (decide (g = g')) as [->|Hne].
    + rewrite decide_True by apply list_elem_of_here.
      by rewrite Nat.add_0_r.
    + rewrite IH. destruct (decide (g ∈ ids)) as [Hin|Hnin].
      * rewrite decide_True by (by apply list_elem_of_further).
        by rewrite Nat.add_succ_r.
      * rewrite decide_False; [done|].
        intros [?|?]%elem_of_cons; done.
Qed.

Lemma elem_of_first_seen g ids : g ∈ first_seen ids ↔ g ∈ ids.
Proof.
  induction ids as [|g' ids IH]; simpl; [done|].
  rewrite !elem_of_cons, list_elem_of_filter, IH.
  destruct (decide (g = g')); tauto.
Qed.

Lemma NoDup_first_seen ids : NoDup (first_seen ids).
Proof.
  induction ids as [|g ids IH]; simpl; [constructor|].
  constructor.
  - rewrite list_elem_of_filter. intros [Hne _]. by apply Hne.
  - by apply NoDup_filter.
Qed.

Lemma first_seen_snoc ids g :
  first_seen (ids ++ [g])
  = if decide (g ∈ ids) then first_seen ids else first_seen ids ++ [g].
Proof.
  induction ids as [|g' ids IH]; simpl.
  - rewrite filter_nil. destruct (decide (g ∈ [])) as [H|H]; [|done].
    by apply elem_of_nil in H.
  - rewrite IH. destruct (decide (g ∈ ids)) as [Hin|Hnin].
    + rewrite decide_True by (by apply list_elem_of_further). done.
    + rewrite filter_app. destruct (decide (g = g')) as [->|Hne].
      * rewrite decide_True by apply list_elem_of_here.
        rewrite filter_cons_False by (intros Hne; by apply Hne).
        by rewrite filter_nil, app_nil_r.
      * rewrite decide_False by (intros [?|?]%elem_of_cons; done).
        rewrite filter_cons_True by done. by rewrite filter_nil.
Qed.

Lemma first_seen_app_prefix ids more :
  ∃ t, first_seen (ids ++ more) = first_seen ids ++ t.
Proof.
  induction more as [|g more IH] using rev_ind.
  - exists []. by rewrite !app_nil_r.
  - destruct IH as [t Ht]. rewrite app_assoc, first_seen_snoc, Ht.
    destruct (decide (g ∈ ids ++ more)).
    + by exists t.
    + exists (t ++ [g]). by rewrite app_assoc.
Qed.

Lemma position_app_l g l t : g ∈ l → position g (l ++ t) = position g l.
Proof.
  induction l as [|g' l IH]; simpl; intros Hin.
  - by apply elem_of_nil in Hin.
  - destruct (decide (g = g')); [done|].
    apply elem_of_cons in Hin as [?|?]; [done|]. by rewrite IH.
Qed.

Lemma position_snoc_new g l : g ∉ l → position g (l ++ [g]) = length l.
Proof.
  induction l as [|g' l IH]; simpl; intros Hnin.
  - by rewrite decide_True.
  - rewrite decide_False by (intros ->; apply Hnin, list_elem_of_here).
    rewrite IH; [done|]. intros ?. by apply Hnin, list_elem_of_further.
Qed.

Lemma lookup_position g l : g ∈ l → l !! position g l = Some g.
Proof.
  induction l as [|g' l IH]; simpl; intros Hin.
  - by apply elem_of_nil in Hin.
  - destruct (decide (g = g')) as [->|Hne]; [done|].
    apply elem_of_cons in Hin as [?|?]; [done|]. by apply IH.
Qed.

Lemma position_lt g l : g ∈ l → position g l < length l.
Proof.
  intros Hin. apply lookup_lt_Some with g. by apply lookup_position.
Qed.

Lemma replace_citation_step use_html md pre g :
  replace_citation use_html md g (state_after md pre)
  = (render use_html (seed_url md g)
       (S (position g (first_seen (pre ++ [g])))),
     state_after md (pre ++ [g])).
Proof.
  unfold replace_citation, state_after.
  rewrite registry_get_from, first_seen_snoc. simpl.
  destruct (decide (g ∈ first_seen pre)) as [Hin|Hnin].
  - rewrite decide_True by (by apply elem_of_first_seen). done.
  - rewrite decide_False by (by rewrite <- elem_of_first_seen).
    rewrite position_snoc_new by done. simpl.
    rewrite registry_from_app. simpl. by rewrite length_app, Nat.add_1_r.
Qed.

#[local] Arguments replace_citation : simpl never.
#[local] Arguments state_after : simpl never.
#[local] Arguments first_seen : simpl never.

Lemma position_first_seen_stable g pre more :
  g ∈ pre →
  position g (first_seen (pre ++ more)) = position g (first_seen pre).
Proof.
  intros Hin. destruct (first_seen_app_prefix pre more) as [t ->].
  apply position_app_l. by apply elem_of_first_seen.
Qed.

Lemma sub_tokens_replace use_html md toks pre :
  let ids := omap (fun t => match t with Marker g => Some g | Chr _ => None end)
                  toks in
  sub_tokens (replace_citation use_html md) toks (state_after md pre)
  = (spliced (fun g => render use_html (seed_url md g)
                         (S (position g (first_seen (pre ++ ids))))) toks,
     state_after md (pre ++ ids)).
Proof.
  revert pre; induction toks as [|[c|g] toks IH]; intros pre; simpl.
  - by rewrite app_nil_r.
  - rewrite IH. done.
  - rewrite replace_citation_step, IH. rewrite <- app_assoc. simpl.
    unfold spliced. simpl. do 3 f_equal.
    symmetry. rewrite (cons_middle g pre), app_assoc. f_equal.
    apply position_first_seen_stable.
    apply elem_of_app. right. apply list_elem_of_here.
Qed.

Lemma strip_prefix_app p s r : strip_prefix p s = Some r → s = p ++ r.
Proof.
  revert s; induction p as [|a p IH]; intros [|b s]; simpl; intros H;
    try congruence.
  destruct (N.eqb_spec a b) as [->|]; [|congruence].
  by rewrite (IH _ H).
Qed.

Lemma lazy_group_app s g r :
  lazy_group s = Some (g, r) → s = g ++ cite_close :: r.
Proof.
  revert g; induction s as [|c s IH]; simpl; intros g H; [congruence|].
  destruct (N.eqb_spec c cite_close) as [->|].
  - by inversion H.
  - destruct (N.eqb c newline); [congruence|].
    destruct (lazy_group s) as [[g' r']|]; [|congruence].
    inversion H; subst. by rewrite (IH g' eq_refl).
Qed.

Lemma match_at_app s g r :
  match_at s = Some (g, r) → s = cite_open ++ g ++ cite_close :: r.
Proof.
  unfold match_at. destruct (strip_prefix cite_open s) as [t|] eqn:E;
    [|congruence].
  apply strip_prefix_app in E. subst s. unfold group1.
  destruct t as [|c t]; [congruence|].
  destruct (N.eqb c newline); [congruence|].
  destruct (lazy_group t) as [[g' r']|] eqn:L; [|congruence].
  intros H; inversion H; subst. apply lazy_group_app in L. by subst t.
Qed.

Lemma spliced_marker f g toks :
  spliced f (Marker g :: toks) = f g ++ spliced f toks.
Proof. reflexivity. Qed.

Lemma spliced_chr f c toks : spliced f (Chr c :: toks) = c :: spliced f toks.
Proof. reflexivity. Qed.

(** The tokens are a reading of the text: writing every marker back in
    full gives the text again. *)
Lemma tokens_unparse text :
  spliced (fun g => cite_open ++ g ++ [cite_close]) (tokens text) = text.
Proof.
  funelim (tokens text); simp tokens.
  - done.
  - rewrite spliced_marker, H.
    rewrite (match_at_app _ _ _ e). by rewrite <- !app_assoc.
  - by rewrite spliced_chr, H.
Qed.

Lemma has_char_false c s : has_char c s = false ↔ c ∉ s.
Proof.
  unfold has_char. induction s as [|x s IH]; simpl.
  - split; [intros _; apply not_elem_of_nil|done].
  - rewrite orb_false_iff, N.eqb_neq, IH, not_elem_of_cons. done.
Qed.

Lemma strip_prefix_here p r : strip_prefix p (p ++ r) = Some r.
Proof.
  induction p as [|a p IH]; simpl; [by destruct r|].
  by rewrite N.eqb_refl.
Qed.

Lemma lazy_group_shortest s g r :
  lazy_group s = Some (g, r) → (line_feed ∉ g) ∧ (closing ∉ g).
Proof.
  revert g; induction s as [|c s IH]; simpl; intros g H; [congruence|].
  destruct (N.eqb_spec c cite_close) as [|Hc].
  { inversion H; subst. split; apply not_elem_of_nil. }
  destruct (N.eqb_spec c newline) as [|Hn]; [congruence|].
  destruct (lazy_group s) as [[g' r']|]; [|congruence].
  inversion H; subst. destruct (IH g' eq_refl) as [Hn' Hc'].
  split; apply not_elem_of_cons; split; done.
Qed.

Lemma match_at_shortest s g r : match_at s = Some (g, r) → shortest_id g.
Proof.
  unfold match_at. destruct (strip_prefix cite_open s) as [t|]; [|congruence].
  unfold group1. destruct t as [|c t]; [congruence|].
  destruct (N.eqb_spec c newline) as [|Hn]; [congruence|].
  destruct (lazy_group t) as [[g' r']|] eqn:L; [|congruence].
  intros H; inversion H; subst.
  destruct (lazy_group_shortest _ _ _ L) as [Hn' Hc'].
  by exists c, g'.
Qed.

Lemma lazy_group_complete g r :
  line_feed ∉ g → is_Some (lazy_group (g ++ closing :: r)).
Proof.
  induction g as [|c g IH]; simpl; intros Hn; [by eexists|].
  apply not_elem_of_cons in Hn as [Hc Hn].
  destruct (N.eqb c cite_close); [by eexists|].
  destruct (N.eqb_spec c newline) as [->|_]; [done|].
  destruct (IH Hn) as [[g' r'] ->]. by eexists.
Qed.

Lemma match_at_complete s : marker_starts s → is_Some (match_at s).
Proof.
  intros (g & r & Hne & Hn & ->). unfold match_at.
  change opening with cite_open. rewrite strip_prefix_here.
  destruct g as [|c g]; [done|]. simpl.
  apply not_elem_of_cons in Hn as [Hc Hn].
  destruct (N.eqb_spec c newline) as [->|_]; [done|].
  destruct (lazy_group_complete g r Hn) as [[g' r'] ->]. by eexists.
Qed.

(** The tokens of the model are the reading of the text into markers and
    characters, and there is no other. *)
Lemma tokens_scans text : scans text (tokens text).
Proof.
  funelim (tokens text); simp tokens.
  - constructor.
  - rewrite (match_at_app _ _ _ e).
    apply (scans_marker g r); [|done]. by apply (match_at_shortest _ _ _ e).
  - apply scans_char; [|done].
    intros Hm. apply match_at_complete in Hm as [? Hm]. congruence.
Qed.

Lemma closing_split (t t' r r' : str) :
  closing ∉ t → closing ∉ t' →
  t ++ closing :: r = t' ++ closing :: r' → t = t' ∧ r = r'.
Proof.
  revert t'; induction t as [|x t IH]; intros [|x' t'] Ht Ht'; simpl.
  - by intros [= ->].
  - intros [= <- _]. by apply not_elem_of_cons in Ht' as [? _].
  - intros [= -> _]. by apply not_elem_of_cons in Ht as [? _].
  - intros [= -> H]. apply not_elem_of_cons in Ht as [_ Ht].
    apply not_elem_of_cons in Ht' as [_ Ht'].
    destruct (IH t' Ht Ht' H) as [-> ->]. done.
Qed.

Lemma shortest_id_split (g g' r r' : str) :
  shortest_id g → shortest_id g' →
  g ++ closing :: r = g' ++ closing :: r' → g = g' ∧ r = r'.
Proof.
  intros (c & t & -> & _ & _ & Ht) (c' & t' & -> & _ & _ & Ht').
  simpl. intros [= -> H].
  destruct (closing_split _ _ _ _ Ht Ht' H) as [-> ->]. done.
Qed.

Lemma shortest_id_starts g r :
  shortest_id g → marker_starts (opening ++ g ++ closing :: r).
Proof.
  intros (c & t & -> & Hc & Hn & _). exists (c :: t), r.
  split; [done|]. split; [|done].
  apply not_elem_of_cons. split; [congruence|done].
Qed.

Lemma scans_unique text toks toks' :
  scans text toks → scans text toks' → toks = toks'.
Proof.
  intros H; revert toks'.
  induction H as [|g r toks Hg Hr IH|c s toks Hn Hs IH]; intros toks' H'.
  - by inversion H'.
  - inversion H' as [|g2 r2 toks2 Hg2 Hr2 Heq|c2 s2 toks2 Hn2 Hs2 Heq].
    + destruct (shortest_id_split _ _ _ _ Hg2 Hg Heq) as [-> ->].
      f_equal. by apply IH.
    + destruct Hn2. change (c2 :: s2) with (opening ++ g ++ closing :: r).
      by apply shortest_id_starts.
  - inversion H' as [|g2 r2 toks2 Hg2 Hr2 Heq|c2 s2 toks2 Hn2 Hs2 Heq].
    + destruct Hn. subst.
      by apply (shortest_id_starts g2 r2).
    + subst. f_equal. by apply IH.
Qed.

Lemma spliced_ext (f f' : str → str) toks :
  (∀ g, f g = f' g) → spliced f toks = spliced f' toks.
Proof.
  intros Hf. unfold spliced. f_equal. apply List.map_ext.
  intros [c|g]; [done|apply Hf].
Qed.

Lemma seed_url_lookup (md : gmap str Meta) g :
  seed_url md g = default [] (md !! g ≫= meta_url).
Proof. unfold seed_url. by destruct (md !! g). Qed.

Lemma unlit_lit s : unlit (lit s) = s.
Proof.
  unfold unlit, lit. rewrite List.map_map.
  rewrite (List.map_ext _ (fun a => a)) by apply ascii_N_embedding.
  rewrite List.map_id. apply string_of_list_ascii_of_string.
Qed.

(** The decimal notation written for a number reads back as that number. *)
Lemma nat_of_str_of_nat n : nat_of_str (str_of_nat n) = Some n.
Proof.
  unfold nat_of_str, str_of_nat. rewrite unlit_lit, NilEmpty.usu. simpl.
  by rewrite DecimalNat.Unsigned.of_to.
Qed.

Lemma by_num_registry_from md k ids :
  List.map (fun '(g, v) =>
              (cite_num v,
               {| ref_id := g; ref_url := cite_url v;
                  ref_title := cite_title v |}))
           (registry_from md k ids)
  = numbered md k ids.
Proof.
  revert k; induction ids as [|g ids IH]; intros k; simpl; [done|].
  by rewrite IH.
Qed.

(** [clean_citations] in closed form. *)
Lemma clean_citations_closed_form text use_html citation_metadata :
  clean_citations text use_html citation_metadata
  = (spliced (fun g => render use_html
                         (seed_url (default ∅ citation_metadata) g)
                         (number_of text g))
             (tokens text),
     numbered (default ∅ citation_metadata) 0 (first_seen (markers text))).
Proof.
  unfold clean_citations. destruct text as [|c text].
  - simpl. unfold markers. simp tokens. done.
  - cbn [truthy negb]. unfold re_sub.
    pose proof (sub_tokens_replace use_html (default ∅ citation_metadata)
                  (tokens (c :: text)) []) as H.
    simpl in H. change (state_after _ []) with (@nil (str * Cite), 0) in H.
    rewrite H. unfold state_after.
    by rewrite by_num_registry_from.
Qed.

Lemma numbered_keys md k ids : (numbered md k ids).*1 = seq (S k) (length ids).
Proof.
  revert k; induction ids as [|g ids IH]; intros k; simpl; [done|].
  by rewrite IH.
Qed.

Lemma numbered_ids md k ids : ref_id <$> (numbered md k ids).*2 = ids.
Proof.
  revert k; induction ids as [|g ids IH]; intros k; simpl; [done|].
  by rewrite IH.
Qed.

Lemma numbered_lookup md k ids i g :
  ids !! i = Some g →
  numbered md k ids !! i
  = Some (S (k + i), {| ref_id := g; ref_url := seed_url md g;
                        ref_title := seed_title md g (S (k + i)) |}).
Proof.
  revert k i; induction ids as [|g' ids IH]; intros k [|i]; simpl; try done.
  - intros [= ->]. by rewrite Nat.add_0_r.
  - intros H. rewrite (IH (S k) i H). by rewrite Nat.add_succ_r.
Qed.

Lemma numbered_elem md k ids num ref :
  (num, ref) ∈ numbered md k ids →
  ref_url ref = seed_url md (ref_id ref)
  ∧ ref_title ref = seed_title md (ref_id ref) num.
Proof.
  revert k; induction ids as [|g ids IH]; intros k; simpl.
  - by intros ?%elem_of_nil.
  - intros [[= -> ->]|H]%elem_of_cons; [done|]. by apply (IH (S k)).
Qed.

Lemma position_filter_order a g g' (l : list str) :
  g ≠ a → g' ≠ a →
  position g (filter (fun x => x ≠ a) l)
    < position g' (filter (fun x => x ≠ a) l)
  ↔ position g l < position g' l.
Proof.
  intros Hg Hg'. induction l as [|y l IH]; simpl; [done|].
  destruct (decide (y = a)) as [->|Hy].
  - rewrite filter_cons_False by (intros H; by apply H).
    rewrite !decide_False by done. rewrite IH. lia.
  - rewrite filter_cons_True by done. simpl.
    destruct (decide (g = y)), (decide (g' = y)); lia.
Qed.

Lemma position_first_seen_order g g' (l : list str) :
  position g (first_seen l) < position g' (first_seen l)
  ↔ position g l < position g' l.
Proof.
  induction l as [|a l IH]; [done|].
  change (first_seen (a :: l))
    with (a :: filter (fun x => x ≠ a) (first_seen l)).
  simpl. destruct (decide (g = a)), (decide (g' = a)); try lia.
  rewrite <- !Nat.succ_lt_mono, position_filter_order by done. apply IH.
Qed.

End NormalizerFacts.

Import NormalizerFacts.

Module ClientFacts.

Lemma on_reply_stop reply :
  snd (on_reply reply) = true ↔ type reply = end_of_conversation.
Proof. unfold on_reply. destruct (type reply); simpl; split; congruence. Qed.

Lemma pump_self_after self t : self_after (pump self t) = self.
Proof.
  induction t as [| |reply rest IH]; simpl; [done|done|].
  destruct (on_reply reply) as [out [|]]; simpl; [done|apply IH].
Qed.

Lemma pump_deliver_all self pre t :
  Forall (fun a => type a ≠ end_of_conversation) pre →
  pump self (deliver_all pre t)
  = {| yielded := tuples_for pre ++ yielded (pump self t);
       ending := ending (pump self t);
       unread := unread (pump self t);
       self_after := self_after (pump self t) |}.
Proof.
  induction 1 as [|a pre Ha _ IH]; simpl.
  - by destruct (pump self t).
  - pose proof (on_reply_stop a) as Hstop.
    destruct (on_reply a) as [out [|]] eqn:E; simpl in *.
    + by destruct Ha, (proj1 Hstop).
    + rewrite IH. simpl. unfold tuples_for. simpl. rewrite E. simpl.
      by rewrite app_assoc.
Qed.

Lemma greet_deliver_all acts welcome_text self :
  greet (deliver_all acts Exhausted) welcome_text self
  = (StopAsyncIteration,
     welcome_text ++ lines (texts acts),
     {| _client := _client self;
        _conversation_id :=
          match last (conversation_ids acts) with
          | Some id => Some id
          | None => _conversation_id self
          end |}).
Proof.
  revert welcome_text self.
  induction acts as [|a acts IH]; intros welcome_text self; simpl.
  - rewrite app_nil_r. by destruct self.
  - rewrite IH. unfold texts, conversation_ids, lines. simpl.
    destruct (truthy_opt (text a)) eqn:Ht.
    + destruct (text a) as [t|] eqn:Hta; [|done]. simpl.
      rewrite <- !app_assoc. simpl.
      destruct (conversation a) as [id|]; simpl; [|done].
      rewrite last_cons. by destruct (last _).
    + destruct (conversation a) as [id|]; simpl; [|done].
      rewrite last_cons. by destruct (last _).
Qed.

Lemma split_spec c s :
  ∃ first others,
    split c s = first :: others
    ∧ has_char c first = false
    ∧ (has_char c s = false → others = [] ∧ first = s)
    ∧ (has_char c s = true →
       others ≠ []
       ∧ ∃ pre, s = pre ++ c :: last_piece (first :: others)
                ∧ has_char c (last_piece (first :: others)) = false).
Proof.
  induction s as [|x s IH].
  - exists [], []. simpl. split; [done|]. split; [done|]. split; [done|].
    intros [=].
  - destruct IH as (f & r & Hsplit & Hf & Hno & Hyes). simpl. rewrite Hsplit.
    unfold has_char in *. simpl. rewrite (N.eqb_sym c x).
    destruct (N.eqb_spec x c) as [->|Hne].
    + exists [], (f :: r). simpl. split; [done|]. split; [done|].
      split; [intros [=]|]. intros _. split; [done|].
      destruct (existsb (N.eqb c) s) eqn:Hs.
      * destruct (Hyes eq_refl) as (_ & pre & Hpre & Hlast).
        exists (c :: pre). split; [|exact Hlast].
        simpl. f_equal. exact Hpre.
      * destruct (Hno eq_refl) as [-> ->]. exists []. by split.
    + exists (x :: f), r. simpl.
      rewrite (N.eqb_sym c x), (proj2 (N.eqb_neq x c) Hne). simpl.
      split; [done|]. split; [done|]. split.
      * intros Hs. by destruct (Hno Hs) as [-> ->].
      * intros Hs. destruct (Hyes Hs) as (Hr & pre & Hpre & Hlast).
        split; [done|]. destruct r as [|p r]; [done|].
        exists (x :: pre). split; [|exact Hlast].
        simpl. f_equal. exact Hpre.
Qed.

Lemma until_app_absent c s t :
  has_char c s = false → until c (s ++ c :: t) = s.
Proof.
  unfold has_char. induction s as [|x s IH]; simpl.
  - by rewrite N.eqb_refl.
  - rewrite (N.eqb_sym c x). destruct (N.eqb x c); simpl; [done|].
    intros H. by rewrite IH.
Qed.

Lemma until_absent c s : has_char c s = false → until c s = s.
Proof.
  unfold has_char. induction s as [|x s IH]; simpl; [done|].
  rewrite (N.eqb_sym c x). destruct (N.eqb x c); simpl; [done|].
  intros H. by rewrite IH.
Qed.

Lemma has_char_rev c s : has_char c (rev s) = has_char c s.
Proof.
  unfold has_char. induction s as [|x s IH]; simpl; [done|].
  rewrite existsb_app, IH. simpl. rewrite orb_false_r. apply orb_comm.
Qed.

(** [split(c)[-1]] is the substring after the last [c]. *)
Lemma last_piece_split c s : last_piece (split c s) = after_last c s.
Proof.
  destruct (split_spec c s) as (f & r & Hsplit & Hf & Hno & Hyes).
  rewrite Hsplit. unfold after_last.
  destruct (has_char c s) eqn:Hs.
  - destruct (Hyes eq_refl) as (_ & pre & Hpre & Hlast).
    rewrite Hpre at 1. rewrite rev_app_distr. simpl. rewrite <- app_assoc.
    simpl. rewrite until_app_absent by (by rewrite has_char_rev).
    by rewrite rev_involutive.
  - destruct (Hno eq_refl) as [-> ->]. simpl.
    rewrite until_absent by (by rewrite has_char_rev).
    by rewrite rev_involutive.
Qed.

Lemma has_char_after_last c s : has_char c (after_last c s) = false.
Proof.
  unfold after_last. rewrite has_char_rev. unfold has_char.
  induction (rev s) as [|x l IH]; simpl; [done|].
  destruct (N.eqb_spec x c) as [->|Hne]; simpl; [done|].
  rewrite IH, orb_false_r. by apply N.eqb_neq.
Qed.

Lemma remove_all_absent old s : contains old s = false → remove_all old s = s.
Proof.
  funelim (remove_all old s); simp remove_all; try done.
  - intros Hc. simpl in Hc. simpl in e. rewrite e in Hc. done.
  - intros Hc. f_equal. apply H. simpl in Hc. simpl in e. rewrite e in Hc.
    done.
Qed.

Lemma contains_has_char p c q s :
  contains (p :: c :: q) s = true → has_char c s = true.
Proof.
  induction s as [|x s IH]; [done|].
  cbn [contains]. destruct (strip_prefix (p :: c :: q) (x :: s)) eqn:E.
  - intros _. apply strip_prefix_app in E. rewrite E.
    unfold has_char. simpl. rewrite N.eqb_refl. apply orb_true_r.
  - intros H. unfold has_char in *. simpl. rewrite (IH H). apply orb_true_r.
Qed.

Lemma task_base_no_colon task_id : has_char colon (task_base task_id) = false.
Proof.
  unfold task_base. destruct (has_char colon task_id) eqn:Hc.
  - apply has_char_after_last.
  - destruct (has_char dot task_id) eqn:Hd; [|done].
    unfold after_last. rewrite has_char_rev.
    rewrite <- has_char_rev in Hc. revert Hc. unfold has_char.
    induction (rev task_id) as [|x l IH]; simpl; [done|].
    destruct (N.eqb x dot); simpl; [done|].
    intros [H1 H2]%orb_false_elim. rewrite H1. simpl. by apply IH.
Qed.

(** Lines 170-175 in terms of the base: the deletion of ["P:"] never
    finds anything to delete. *)
Lemma task_name_of_base task_id :
  task_name_of task_id = remove_all (lit "-InvokeServer") (task_base task_id)
  ∧ remove_all (lit "P:") (task_base task_id) = task_base task_id.
Proof.
  assert (remove_all (lit "P:") (task_base task_id) = task_base task_id) as HP.
  { apply remove_all_absent.
    destruct (contains (lit "P:") (task_base task_id)) eqn:Hc; [|done].
    apply (contains_has_char 80%N 58%N []) in Hc.
    change 58%N with colon in Hc. by rewrite task_base_no_colon in Hc. }
  split; [|exact HP].
  unfold task_name_of. rewrite !last_piece_split. fold (task_base task_id).
  by rewrite HP.
Qed.

(** The records built from entities (lines 227-232) carry both keys, so
    that the defaults of [clean_citations] never apply to them. *)
Lemma add_entity_both_keys citation_map ent :
  (∀ k v, citation_map !! k = Some v →
          is_Some (meta_url v) ∧ is_Some (meta_title v)) →
  ∀ k v, add_entity citation_map ent !! k = Some v →
         is_Some (meta_url v) ∧ is_Some (meta_title v).
Proof.
  intros Hm k v. unfold add_entity.
  destruct ent as [d|d|]; [| |by apply Hm].
  all: destruct (_ || _); [|by apply Hm].
  all: destruct (truthy _); [|by apply Hm].
  all: destruct (decide (first_truthy [ent_at_id d; ent_id d] = k))
         as [->|Hne].
  all: try (rewrite lookup_insert_eq; intros [= <-]; simpl; by eauto).
  all: rewrite lookup_insert_ne by done; by apply Hm.
Qed.

Lemma on_message_both_keys reply citation_map :
  Citations citation_map ∈ on_message reply →
  ∀ k v, citation_map !! k = Some v →
         is_Some (meta_url v) ∧ is_Some (meta_title v).
Proof.
  unfold on_message. rewrite !elem_of_app. intros [H|[H|H]].
  - destruct (decide (_ = ∅)); [by apply elem_of_nil in H|].
    apply list_elem_of_singleton in H. injection H as ->.
    generalize (default [] (entities reply)). intros ents.
    assert (∀ k v, (∅ : gmap str Meta) !! k = Some v →
                   is_Some (meta_url v) ∧ is_Some (meta_title v)) as H0.
    { intros k v. by rewrite lookup_empty. }
    revert H0. generalize (∅ : gmap str Meta).
    induction ents as [|ent ents IH]; intros m Hm; simpl; [done|].
    apply IH. by apply add_entity_both_keys.
  - destruct (truthy_opt (text reply)); [|by apply elem_of_nil in H].
    destruct (_ || _); [|by apply elem_of_nil in H].
    by apply list_elem_of_singleton in H.
  - destruct (suggested_actions reply) as [a|]; [|by apply elem_of_nil in H].
    destruct (decide (a = [])); [by apply elem_of_nil in H|].
    by apply list_elem_of_singleton in H.
Qed.

End ClientFacts.

Import ClientFacts.

Module AppFacts.

Section WithDigits.

Variable decimal : N -> option N.

Lemma consume_app a b st :
  consume decimal (a ++ b) st
  = match consume decimal a st with
    | Completed st' => consume decimal b st'
    | Aborted st' => Aborted st'
    end.
Proof.
  revert st; induction a as [|e a IH]; intros st; simpl; [done|].
  destruct (on_tuple decimal st e); [apply IH|done].
Qed.

Lemma consume_snoc events e st :
  consume decimal (events ++ [e]) st
  = match consume decimal events st with
    | Completed st' =>
        match on_tuple decimal st' e with
        | Some st'' => Completed st''
        | None => Aborted st'
        end
    | Aborted st' => Aborted st'
    end.
Proof.
  rewrite consume_app. destruct (consume decimal events st); [|done].
  simpl. by destruct (on_tuple _ _ _).
Qed.

(** Outside the citations branch the body never raises. *)
Lemma on_tuple_total st e :
  (∀ m, e ≠ Citations m) → is_Some (on_tuple decimal st e).
Proof.
  intros He. destruct e; simpl; try by eexists.
  - by destruct (negb _).
  - by destruct (He citation_map).
Qed.

Lemma consume_search_results events st st' :
  consume decimal events st = Completed st' →
  search_results st' = search_results st ++ search_results_of events.
Proof.
  revert st; induction events as [|e events IH]; intros st; simpl.
  - intros [= <-]. by rewrite app_nil_r.
  - destruct (on_tuple decimal st e) as [st1|] eqn:E; [|done].
    intros H. rewrite (IH _ H). clear IH H.
    destruct e; simpl in E; try (injection E as <-; simpl; done).
    + injection E as <-. simpl. by rewrite <- app_assoc.
    + destruct (negb _); injection E as <-; done.
    + destruct (decide _); [|done]. by injection E as <-.
Qed.

Lemma consume_got_streaming events st st' :
  consume decimal events st = Completed st' →
  got_streaming st' = got_streaming st || has_content events.
Proof.
  revert st; induction events as [|e events IH]; intros st; simpl.
  - intros [= <-]. by rewrite orb_false_r.
  - destruct (on_tuple decimal st e) as [st1|] eqn:E; [|done].
    intros H. rewrite (IH _ H). clear IH H.
    destruct e; simpl in E; try (injection E as <-; simpl; done).
    + injection E as <-. simpl. by rewrite orb_true_r.
    + destruct (got_streaming st) eqn:Hg; simpl in E; injection E as <-;
        simpl; by rewrite ?Hg.
    + destruct (decide _); [|done]. by injection E as <-.
Qed.

(** When the body raises on a citations tuple and when it does not. *)
Lemma on_tuple_citations_raises st m :
  on_tuple decimal st (Citations m) = None
  ↔ ∃ cite_id cite_info,
      m !! cite_id = Some cite_info
      ∧ cross_link decimal (search_results st) cite_id cite_info = None.
Proof.
  simpl. destruct (decide _) as [Hall|Hnot].
  - split; [done|]. intros (k & v & Hk & Hnone).
    destruct (Hall k v Hk) as [r Hr]. congruence.
  - split; [|done]. intros _.
    apply map_not_Forall in Hnot; [|apply _].
    destruct Hnot as (k & v & Hk & Hv). exists k, v. split; [done|].
    destruct (cross_link _ _ _ _); [|done]. destruct Hv. by eexists.
Qed.

Lemma on_tuple_citations_lookup st st' m cite_id :
  on_tuple decimal st (Citations m) = Some st' →
  citation_metadata st' !! cite_id
  = match m !! cite_id with
    | Some cite_info =>
        cross_link decimal (search_results st) cite_id cite_info
    | None => citation_metadata st !! cite_id
    end.
Proof.
  simpl. destruct (decide _) as [Hall|]; [|done]. intros [= <-]. simpl.
  rewrite lookup_union, map_lookup_imap.
  destruct (m !! cite_id) as [cite_info|] eqn:Hm; simpl.
  - destruct (Hall _ _ Hm) as [r Hr]. rewrite Hr.
    by destruct (citation_metadata st !! cite_id).
  - by destruct (citation_metadata st !! cite_id).
Qed.

Lemma on_tuple_citations_frame st st' m :
  on_tuple decimal st (Citations m) = Some st' →
  content_parts st' = content_parts st
  ∧ suggestions st' = suggestions st
  ∧ search_results st' = search_results st
  ∧ thoughts st' = thoughts st
  ∧ got_streaming st' = got_streaming st.
Proof.
  simpl. destruct (decide _); [|done]. by intros [= <-].
Qed.

(** What the loop body makes of one record. *)
Lemma cross_link_raises srs cite_id cite_info :
  cross_link decimal srs cite_id cite_info = None
  ↔ ∃ digits,
      re_search decimal cite_id = Some digits
      ∧ truthy_opt (meta_url cite_info) = false
      ∧ (int_max_str_digits < N.of_nat (length digits))%N.
Proof.
  unfold cross_link, int_of_digits.
  destruct (re_search decimal cite_id) as [digits|].
  - destruct (truthy_opt (meta_url cite_info)); simpl.
    + split; [done|]. by intros (? & _ & ? & _).
    + destruct (N.leb_spec (N.of_nat (length digits)) int_max_str_digits).
      * split.
        -- destruct (first_with_index _ _); [|done].
           by destruct (negb _).
        -- intros (ds & [= <-] & _ & Hlt). lia.
      * split; [|done]. intros _. by exists digits.
  - split; [done|]. by intros (? & ? & _).
Qed.

Lemma cross_link_index srs cite_id cite_info n :
  search_index decimal cite_id = Some n →
  truthy_opt (meta_url cite_info) = false →
  cross_link decimal srs cite_id cite_info
  = Some match first_with_index n srs with
         | Some sr => linked_to sr cite_info
         | None => cite_info
         end.
Proof.
  unfold search_index, cross_link. intros Hidx Hurl.
  destruct (re_search decimal cite_id) as [digits|]; [|done].
  simpl in Hidx. rewrite Hurl, Hidx. simpl.
  destruct (first_with_index n srs) as [sr|]; [|done].
  unfold linked_to. by destruct (truthy_opt (meta_title cite_info)).
Qed.

Lemma cross_link_untouched srs cite_id cite_info :
  re_search decimal cite_id = None
  ∨ truthy_opt (meta_url cite_info) = true →
  cross_link decimal srs cite_id cite_info = Some cite_info.
Proof.
  unfold cross_link. intros [-> | ->]; [done|].
  by destruct (re_search decimal cite_id).
Qed.

(** Merging one more citations tuple after a completed prefix. *)
Lemma citations_merge_like before m st :
  consume decimal before start_of_turn = Completed st →
  ((∀ cite_id cite_info,
      m !! cite_id = Some cite_info →
      is_Some (cross_link decimal (search_results_of before) cite_id
                 cite_info)) →
   ∃ st',
     consume decimal (before ++ [Citations m]) start_of_turn = Completed st'
     ∧ ∀ cite_id,
         citation_metadata st' !! cite_id
         = match m !! cite_id with
           | Some cite_info =>
               cross_link decimal (search_results_of before) cite_id
                 cite_info
           | None => citation_metadata st !! cite_id
           end)
  ∧ (∀ st',
       consume decimal (before ++ [Citations m]) start_of_turn
       = Completed st' →
       on_tuple decimal st (Citations m) = Some st'
       ∧ search_results st = search_results_of before).
Proof.
  intros Hst.
  pose proof (consume_search_results _ _ _ Hst) as Hsrs.
  simpl in Hsrs. rewrite <- Hsrs.
  rewrite consume_snoc, Hst. split.
  - intros Hall.
    destruct (on_tuple decimal st (Citations m)) as [st'|] eqn:E.
    + exists st'. split; [done|]. intros cite_id.
      apply (on_tuple_citations_lookup _ _ _ cite_id E).
    + apply on_tuple_citations_raises in E as (k & v & Hk & Hnone).
      destruct (Hall k v Hk) as [r Hr]. congruence.
  - intros st'. destruct (on_tuple decimal st (Citations m)); [|done].
    by intros [= <-].
Qed.

End WithDigits.

Lemma int_of_digits_one d : int_of_digits [d] = Some d.
Proof. by destruct d. Qed.

Lemma search_index_turn1search0 decimal :
  has_ascii_digits decimal →
  search_index decimal (lit "turn1search0") = Some 0%N.
Proof.
  intros Hd. pose proof (Hd 48%N ltac:(lia)) as H0.
  assert (re_search decimal (lit "turn1search0") = Some [0%N]) as Hre.
  { vm_compute. vm_compute in H0. by rewrite H0. }
  unfold search_index. rewrite Hre. reflexivity.
Qed.

End AppFacts.

Import AppFacts.

(** * The claims *)

(** ** The citation normaliser *)

(** The end-to-end scenarios of the specification, run on the model. *)
Example answer_text_plain :
  clean_citations answer_text false None
  = (lit "Answer[1] more[1].",
     [(1, {| ref_id := lit "turn1search0"; ref_url := [];
             ref_title := lit "Source 1" |})]).
Proof. vm_compute. reflexivity. Qed.

Example answer_text_html :
  clean_citations answer_text true
    (Some {[ lit "turn1search0" :=
               {| meta_url := Some (lit "https://x");
                  meta_title := Some (lit "X") |} ]})
  = (lit "Answer" ++ link_html (lit "https://x") 1
     ++ lit " more" ++ link_html (lit "https://x") 1 ++ lit ".",
     [(1, {| ref_id := lit "turn1search0"; ref_url := lit "https://x";
             ref_title := lit "X" |})]).
Proof. vm_compute. reflexivity. Qed.

(** C2. For every text, [clean_citations] gives each identifier that occurs
    in a marker exactly one entry, and writes its number at every occurrence.
    - The markers are those of the text itself: the text is read from left
      to right, a marker (U+E200 [cite] U+E202, an identifier, U+E201) is
      taken wherever one starts, with the shortest identifier, and every
      other character is copied; the text has this one reading.
    - The keys of the returned mapping are [1..N] in this order, their
      identifiers are the distinct identifiers in order of first appearance,
      and the number of an identifier is the position of its first
      occurrence among the distinct identifiers.
    - The cleaned text is the text with every marker replaced by the number
      of its identifier in decimal between square brackets, inside a
      superscript link to the url on record in HTML mode when that url is
      not empty; the decimal notation reads back as the number. *)
Theorem clean_citations_numbering
    (text : str) (use_html : bool) (citation_metadata : option (gmap str Meta)) :
  let md := default ∅ citation_metadata in
  let ids := first_seen (markers text) in
  let cleaned := fst (clean_citations text use_html citation_metadata) in
  let by_num := snd (clean_citations text use_html citation_metadata) in
  let url g := default [] (md !! g ≫= meta_url) in
  let written g :=
    if use_html && truthy (url g)
    then lit "<a href=" ++ dquote ++ url g ++ dquote
         ++ lit " target=" ++ dquote ++ lit "_blank" ++ dquote
         ++ lit " style=" ++ dquote
         ++ lit "text-decoration:none;color:#0066cc;" ++ dquote
         ++ lit "><sup>[" ++ str_of_nat (number_of text g)
         ++ lit "]</sup></a>"
    else lit "[" ++ str_of_nat (number_of text g) ++ lit "]" in
  scans text (tokens text)
  ∧ (∀ toks, scans text toks → toks = tokens text)
  ∧ (∀ n, nat_of_str (str_of_nat n) = Some n)
  ∧ by_num.*1 = seq 1 (length ids)
  ∧ ref_id <$> by_num.*2 = ids
  ∧ NoDup ids
  ∧ (∀ g, g ∈ ids ↔ g ∈ markers text)
  ∧ (∀ g g',
       number_of text g < number_of text g'
       ↔ position g (markers text) < position g' (markers text))
  ∧ text = spliced (fun g => cite_open ++ g ++ [cite_close]) (tokens text)
  ∧ cleaned = spliced written (tokens text)
  ∧ cleaned
    = spliced (fun g => render use_html (seed_url md g) (number_of text g))
              (tokens text)
  ∧ (∀ g, g ∈ markers text →
       1 ≤ number_of text g ≤ length ids
       ∧ ∃ ref, by_num !! (number_of text g - 1)
                = Some (number_of text g, ref)
                ∧ ref_id ref = g).
Proof.
  intros md ids cleaned by_num url written. subst cleaned by_num.
  rewrite clean_citations_closed_form. cbn [fst snd]. fold md ids.
  split; [apply tokens_scans|].
  split; [intros toks Ht; apply (scans_unique text); [done|apply tokens_scans]|].
  split; [apply nat_of_str_of_nat|].
  split; [apply numbered_keys|].
  split; [apply numbered_ids|].
  split; [apply NoDup_first_seen|].
  split; [intros g; apply elem_of_first_seen|].
  split.
  { intros g g'. unfold number_of. fold ids.
    rewrite <- Nat.succ_lt_mono. apply position_first_seen_order. }
  split; [by rewrite tokens_unparse|].
  split.
  { apply spliced_ext. intros g. subst written url. cbv beta.
    rewrite <- seed_url_lookup. reflexivity. }
  split; [done|].
  intros g Hg. apply elem_of_first_seen in Hg. fold ids in Hg.
  pose proof (position_lt _ _ Hg) as Hlt.
  unfold number_of. fold ids. split; [lia|].
  replace (S (position g ids) - 1) with (position g ids) by lia.
  eexists. split.
  - by apply (numbered_lookup md 0 ids (position g ids) g), lookup_position.
  - done.
Qed.

(** C9. In [clean_citations] a key that is present in the metadata entry of
    an identifier wins over the synthetic default, even when its value is
    the empty string: the title is the placeholder ["Source {num}"] (and the
    url is empty by default) only when the identifier has no metadata entry
    or the entry lacks the key. *)
Theorem clean_citations_defaults
    (text : str) (use_html : bool) (citation_metadata : gmap str Meta)
    (i num : nat) (ref : Ref) :
  snd (clean_citations text use_html (Some citation_metadata)) !! i
    = Some (num, ref) →
  (∀ meta t, citation_metadata !! ref_id ref = Some meta →
             meta_title meta = Some t → ref_title ref = t)
  ∧ (∀ meta u, citation_metadata !! ref_id ref = Some meta →
               meta_url meta = Some u → ref_url ref = u)
  ∧ (∀ meta, citation_metadata !! ref_id ref = Some meta →
             meta_title meta = Some [] → ref_title ref = [])
  ∧ (citation_metadata !! ref_id ref = None
     ∨ (∃ meta, citation_metadata !! ref_id ref = Some meta
                ∧ meta_title meta = None) →
     ref_title ref = lit "Source " ++ str_of_nat num)
  ∧ (citation_metadata !! ref_id ref = None
     ∨ (∃ meta, citation_metadata !! ref_id ref = Some meta
                ∧ meta_url meta = None) →
     ref_url ref = []).
Proof.
  rewrite clean_citations_closed_form. cbn [snd default].
  intros Hi. apply list_elem_of_lookup_2, numbered_elem in Hi.
  destruct Hi as [Hurl Htitle]. rewrite Hurl, Htitle.
  unfold seed_url, seed_title, id.
  repeat split.
  - by intros meta t -> ->.
  - by intros meta u -> ->.
  - by intros meta -> ->.
  - by intros [->|(meta & -> & ->)].
  - by intros [->|(meta & -> & ->)].
Qed.

Lemma clean_citations_defaults_witness :
  ∃ ref,
    snd (clean_citations blank_title_text true (Some blank_title_metadata))
      !! 0 = Some (1, ref)
    ∧ ref_id ref = lit "doc7" ∧ ref_title ref = [] ∧ ref_url ref = [].
Proof.
  eexists. split; [vm_compute; reflexivity|]. split; [reflexivity|].
  pose proof (clean_citations_defaults blank_title_text true
                blank_title_metadata 0 1
                {| ref_id := lit "doc7"; ref_url := []; ref_title := [] |}
                ltac:(vm_compute; reflexivity)) as (Ht & Hu & _).
  split.
  - apply (Ht {| meta_url := Some []; meta_title := Some [] |});
      [vm_compute|]; reflexivity.
  - apply (Hu {| meta_url := Some []; meta_title := Some [] |});
      [vm_compute|]; reflexivity.
Defined.

(** ** The client wrapper *)

(** C4. For every message, when no conversation identifier is set ([None],
    or the empty string, which [not] treats alike), [send_message] yields
    exactly one tuple, [('content', "Error: No active conversation.")], and
    then ends normally: the SDK is not asked and nothing propagates. *)
Theorem send_message_without_conversation
    (self : CopilotStudioClient) (message : str) :
  truthy_opt (_conversation_id self) = false →
  send_message self message
  = {| yielded := [Content (lit "Error: No active conversation.")];
       ending := StopAsyncIteration;
       unread := None;
       self_after := self |}.
Proof.
  intros H. unfold send_message.
  destruct (_conversation_id self) as [c|]; [|done].
  simpl in H. by rewrite H.
Qed.

Lemma send_message_without_conversation_witness :
  send_message (init (sdk Broken Broken)) (lit "hello")
  = {| yielded := [Content (lit "Error: No active conversation.")];
       ending := StopAsyncIteration;
       unread := None;
       self_after := init (sdk Broken Broken) |}.
Proof.
  apply (send_message_without_conversation
           (init (sdk Broken Broken)) (lit "hello")).
  reflexivity.
Defined.

Lemma status_is_last_tuple :
  ¬ end_of_turn_follows_status.
Proof.
  intros H.
  destruct (H ended_client (lit "quit") (lit "conv-1") [delta (lit "Bye")]
              (activity end_of_conversation None)
              (Deliver (delta (lit "never read")) Broken)
              eq_refl eq_refl eq_refl) as [end_of_turn Hy].
  - repeat constructor. simpl. discriminate.
  - reflexivity.
  - vm_compute in Hy. discriminate Hy.
Qed.

(** C6, amended. When the stream of a send reaches an end-of-conversation
    activity, [send_message] yields [('status', "Conversation ended.")] as
    its last tuple and the sequence ends there, normally: no tuple follows
    the status (the end of the sequence is the only end-of-turn marker),
    and whatever the transport still holds is left unread. *)
Theorem send_message_end_of_conversation
    (self : CopilotStudioClient) (message conversation_id : str)
    (before : list Activity) (reply : Activity) (rest : Transport) :
  _conversation_id self = Some conversation_id →
  truthy conversation_id = true →
  sdk_ask_question (_client self) message conversation_id
    = deliver_all before (Deliver reply rest) →
  Forall (fun a => type a ≠ end_of_conversation) before →
  type reply = end_of_conversation →
  send_message self message
  = {| yielded := tuples_for before ++ [Status (lit "Conversation ended.")];
       ending := StopAsyncIteration;
       unread := Some rest;
       self_after := self |}
  ∧ last (yielded (send_message self message))
    = Some (Status (lit "Conversation ended.")).
Proof.
  intros Hid Hset Hask Hbefore Hend.
  assert (send_message self message
          = {| yielded :=
                 tuples_for before ++ [Status (lit "Conversation ended.")];
               ending := StopAsyncIteration;
               unread := Some rest;
               self_after := self |}) as Hrun.
  { unfold send_message. rewrite Hid, Hset, Hask.
    rewrite pump_deliver_all by done. simpl.
    unfold on_reply. rewrite Hend. reflexivity. }
  split; [exact Hrun|].
  rewrite Hrun. cbn [yielded]. apply last_snoc.
Qed.

Lemma send_message_end_of_conversation_witness :
  send_message ended_client (lit "quit")
  = {| yielded := [Content (lit "Bye"); Status (lit "Conversation ended.")];
       ending := StopAsyncIteration;
       unread := Some (Deliver (delta (lit "never read")) Broken);
       self_after := ended_client |}.
Proof.
  apply (send_message_end_of_conversation ended_client (lit "quit")
           (lit "conv-1") [delta (lit "Bye")]
           (activity end_of_conversation None)
           (Deliver (delta (lit "never read")) Broken)).
  - reflexivity.
  - reflexivity.
  - reflexivity.
  - repeat constructor. simpl. discriminate.
  - reflexivity.
Defined.

(** C10. [send_message] leaves the client object, and so the stored
    conversation identifier, as it was, whatever the message and whatever
    the transport delivers, also when the sequence ends early or the
    transport fails. *)
Theorem send_message_keeps_conversation_id
    (self : CopilotStudioClient) (message : str) :
  self_after (send_message self message) = self
  ∧ conversation_id (self_after (send_message self message))
    = conversation_id self.
Proof.
  assert (self_after (send_message self message) = self) as H.
  { unfold send_message. destruct (_conversation_id self) as [c|]; [|done].
    destruct (truthy c); [|done]. apply pump_self_after. }
  by rewrite H.
Qed.

Lemma start_conversation_records_last_id :
  ¬ records_first_seen_id.
Proof.
  intros H.
  specialize (H two_ids_sdk
                [hello (lit "Hi") (lit "conv-A");
                 hello (lit "there") (lit "conv-B")]
                (lit "conv-A") eq_refl eq_refl).
  vm_compute in H. discriminate H.
Qed.

(** C5, amended. When the stream of [start_conversation] is exhausted, the
    identifier recorded on the client is the last one seen in the stream
    (the stored one is kept if the stream carries none), and the call
    returns [None] exactly when no activity carried a non-empty text, and
    otherwise the texts, one per line, with the white space at both ends
    stripped. *)
Theorem start_conversation_exhausted
    (self : CopilotStudioClient) (acts : list Activity) :
  sdk_start_conversation (_client self) = deliver_all acts Exhausted →
  start_conversation self
  = (Some (if decide (texts acts = []) then None
           else Some (strip (lines (texts acts)))),
     {| _client := _client self;
        _conversation_id :=
          match last (conversation_ids acts) with
          | Some id => Some id
          | None => _conversation_id self
          end |}).
Proof.
  intros Hs. unfold start_conversation. rewrite Hs, greet_deliver_all.
  simpl. do 3 f_equal.
  destruct (texts acts) as [|t ts]; [done|].
  rewrite decide_False by done. unfold lines. simpl.
  by destruct t.
Qed.

Lemma start_conversation_exhausted_witness :
  start_conversation (init two_ids_sdk)
  = (Some (Some (lit "Hi" ++ [newline] ++ lit "there")),
     {| _client := two_ids_sdk; _conversation_id := Some (lit "conv-B") |}).
Proof.
  rewrite (start_conversation_exhausted (init two_ids_sdk)
             [hello (lit "Hi") (lit "conv-A");
              hello (lit "there") (lit "conv-B")]).
  - reflexivity.
  - reflexivity.
Defined.

Lemma task_name_of_deletes_inner_marker :
  ¬ label_strips_prefix_and_suffix.
Proof.
  intros H. specialize (H (lit "agent.action.Tool-InvokeServer-v2")).
  vm_compute in H. discriminate H.
Qed.

(** C8, amended. For every task identifier carried by a thought event, the
    label of the yielded thought is made from the substring after the last
    colon if the identifier has a colon, else from the substring after the
    last dot if it has a dot, else from the identifier itself, by deleting
    every occurrence of ["-InvokeServer"] wherever it stands; the deletion
    of ["P:"] that precedes it never finds an occurrence. *)
Theorem thought_task_label
    (reply : Activity) (v : EventValue) (t task_id : str) :
  type reply = event →
  value reply = Dict v →
  thought v = Some t →
  truthy t = true →
  taskDialogId v = Some task_id →
  (∃ more,
     fst (on_reply reply)
     = Thought {| th_text := t;
                  th_task :=
                    remove_all (lit "-InvokeServer") (task_base task_id);
                  th_state := default [] (state v) |} :: more)
  ∧ remove_all (lit "P:") (task_base task_id) = task_base task_id.
Proof.
  intros Htype Hvalue Hthought Ht Htask.
  destruct (task_name_of_base task_id) as [Hname HP].
  split; [|exact HP].
  unfold on_reply. rewrite Htype. unfold on_event. rewrite Hvalue.
  cbn [as_dict fst]. rewrite Hthought, Htask. cbn [truthy_opt default].
  rewrite Ht. unfold id. rewrite Hname. eexists. reflexivity.
Qed.

Lemma thought_task_label_witness :
  ∃ more,
    fst (on_reply
           (reasoning (lit "Looking up quests")
              (lit "agent.action.Guild-InvokeServer:list_quests")))
    = Thought {| th_text := lit "Looking up quests";
                 th_task := lit "list_quests";
                 th_state := lit "completed" |} :: more.
Proof.
  exact (proj1 (thought_task_label
           (reasoning (lit "Looking up quests")
              (lit "agent.action.Guild-InvokeServer:list_quests"))
           _ (lit "Looking up quests")
           (lit "agent.action.Guild-InvokeServer:list_quests")
           eq_refl eq_refl eq_refl eq_refl eq_refl)).
Defined.

(** ** The consumer loop *)

(** C3. In the loop over the tuples of one turn, a ['final_content'] tuple
    leaves the accumulated text as it is once a ['content'] tuple has been
    seen, and replaces it wholesale when none has been seen (and the loop
    has not been left by an exception before, in which case nothing
    changes any more). *)
Theorem final_content_only_without_streaming
    (decimal : N -> option N) (before : list Event) (full : str) :
  let st := reached (consume decimal before start_of_turn) in
  let st' :=
    reached (consume decimal (before ++ [FinalContent full]) start_of_turn) in
  (has_content before = true →
   content_parts st' = content_parts st ∧ raw_content st' = raw_content st)
  ∧ (has_content before = false →
     completed (consume decimal before start_of_turn) = true →
     content_parts st' = [full] ∧ raw_content st' = full)
  ∧ (completed (consume decimal before start_of_turn) = false → st' = st).
Proof.
  intros st st'. subst st st'. rewrite consume_snoc.
  destruct (consume decimal before start_of_turn) as [st|st] eqn:E;
    simpl; [|done].
  pose proof (consume_got_streaming decimal _ _ _ E) as Hg. simpl in Hg.
  unfold raw_content. rewrite Hg.
  split; [|split; [|done]].
  - intros Hc. by rewrite Hc.
  - intros Hc _. rewrite Hc. simpl. by rewrite app_nil_r.
Qed.

Lemma final_content_only_without_streaming_witness :
  raw_content
    (reached (consume ascii_decimal
                ([Status (lit "Thinking")] ++ [FinalContent (lit "Done.")])
                start_of_turn))
  = lit "Done.".
Proof.
  exact (proj2 (proj1 (proj2
           (final_content_only_without_streaming ascii_decimal
              [Status (lit "Thinking")] (lit "Done.")))
           eq_refl eq_refl)).
Defined.

Lemma later_citations_overwrite :
  ¬ ∃ decimal, merge_never_overwrites decimal.
Proof.
  intros [decimal H].
  assert (consume decimal [Citations first_record] start_of_turn
          = Completed
              {| content_parts := []; suggestions := None;
                 citation_metadata := first_record;
                 search_results := []; thoughts := [];
                 got_streaming := false; status_placeholder := None;
                 content_placeholder := None |}) as H1
    by (vm_compute; reflexivity).
  assert (consume decimal ([Citations first_record]
                             ++ [Citations second_record]) start_of_turn
          = Completed
              {| content_parts := []; suggestions := None;
                 citation_metadata := second_record;
                 search_results := []; thoughts := [];
                 got_streaming := false; status_placeholder := None;
                 content_placeholder := None |}) as H2
    by (vm_compute; reflexivity).
  destruct (H [Citations first_record] second_record (lit "doc7") _ _
              {| meta_url := Some (lit "https://a");
                 meta_title := Some (lit "A") |}
              {| meta_url := Some (lit "https://b");
                 meta_title := Some (lit "B") |} H1 H2) as [Hurl _].
  - vm_compute. reflexivity.
  - vm_compute. reflexivity.
  - specialize (Hurl eq_refl). vm_compute in Hurl. discriminate Hurl.
Qed.

(** C1, amended. Merging a ['citations'] tuple into the table is by
    identifier, not by field: every identifier the tuple carries gets the
    incoming record (after cross-linking), whatever was recorded for it
    before, and the records of all other identifiers are left as they
    were. This is so when the cross-linking raises for none of the
    records of the tuple; it raises ([ValueError], from [int]) exactly for
    a record with no url whose identifier ends in ["search"] and more
    digits than the interpreter converts, and then the loop is left with
    nothing merged. *)
Theorem citations_merge_replaces_records
    (decimal : N -> option N) (before : list Event) (m : gmap str Meta)
    (st : Turn) :
  consume decimal before start_of_turn = Completed st →
  let srs := search_results_of before in
  ((∀ cite_id cite_info, m !! cite_id = Some cite_info →
                         is_Some (cross_link decimal srs cite_id cite_info)) →
   ∃ st',
     consume decimal (before ++ [Citations m]) start_of_turn = Completed st'
     ∧ ∀ cite_id,
         citation_metadata st' !! cite_id
         = match m !! cite_id with
           | Some cite_info => cross_link decimal srs cite_id cite_info
           | None => citation_metadata st !! cite_id
           end)
  ∧ ((∃ cite_id cite_info,
        m !! cite_id = Some cite_info
        ∧ cross_link decimal srs cite_id cite_info = None) →
     consume decimal (before ++ [Citations m]) start_of_turn = Aborted st)
  ∧ (∀ cite_id cite_info,
       cross_link decimal srs cite_id cite_info = None
       ↔ ∃ digits,
           re_search decimal cite_id = Some digits
           ∧ truthy_opt (meta_url cite_info) = false
           ∧ (int_max_str_digits < N.of_nat (length digits))%N).
Proof.
  intros Hst srs. subst srs.
  pose proof (consume_search_results decimal _ _ _ Hst) as Hsrs.
  simpl in Hsrs. rewrite <- Hsrs.
  rewrite consume_snoc, Hst.
  split; [|split].
  - intros Hall.
    destruct (on_tuple decimal st (Citations m)) as [st'|] eqn:E.
    + exists st'. split; [done|]. intros cite_id.
      apply (on_tuple_citations_lookup decimal _ _ _ cite_id E).
    + apply on_tuple_citations_raises in E as (k & v & Hk & Hnone).
      destruct (Hall k v Hk) as [r Hr]. congruence.
  - intros Hex. apply (on_tuple_citations_raises decimal) in Hex.
    by rewrite Hex.
  - intros cite_id cite_info. apply cross_link_raises.
Qed.

Lemma citations_merge_replaces_records_witness :
  ∃ st',
    consume ascii_decimal
      ([Citations first_record] ++ [Citations second_record]) start_of_turn
    = Completed st'
    ∧ citation_metadata st' !! lit "doc7"
      = Some {| meta_url := Some (lit "https://b");
                meta_title := Some (lit "B") |}.
Proof.
  destruct (proj1 (citations_merge_replaces_records ascii_decimal
                     [Citations first_record] second_record _ eq_refl))
    as (st' & Hst' & Hlook).
  - apply (bool_decide_unpack _). vm_compute. reflexivity.
  - exists st'. split; [exact Hst'|]. rewrite Hlook.
    vm_compute. reflexivity.
Defined.

Lemma cross_link_keeps_present_title :
  ¬ ∃ decimal,
      has_ascii_digits decimal ∧ cross_link_copies_url_and_title decimal.
Proof.
  intros (decimal & Hd & H).
  pose proof (search_index_turn1search0 decimal Hd) as Hidx.
  set (info := {| meta_url := Some []; meta_title := Some (lit "Doc") |}).
  assert (titled_citation !! lit "turn1search0" = Some info)
    as Hm by (vm_compute; reflexivity).
  assert (∀ k, k ≠ lit "turn1search0" → titled_citation !! k = None) as Hno.
  { intros k Hk. unfold titled_citation. by rewrite lookup_singleton_ne. }
  assert (consume decimal [SearchResult found_source] start_of_turn
          = Completed (reached (consume decimal [SearchResult found_source]
                                  start_of_turn))) as Hbefore by done.
  destruct (proj1 (citations_merge_like decimal [SearchResult found_source]
                     titled_citation _ Hbefore)) as (st' & Hst' & Hlook).
  { intros k v Hk. destruct (decide (k = lit "turn1search0")) as [->|Hne].
    - rewrite Hm in Hk. injection Hk as <-.
      rewrite (cross_link_index decimal _ _ info 0%N Hidx eq_refl).
      by eexists.
    - by rewrite (Hno k Hne) in Hk. }
  specialize (H [SearchResult found_source] titled_citation
                (lit "turn1search0") info 0%N found_source st'
                Hm eq_refl Hidx eq_refl Hst').
  rewrite Hlook, Hm in H.
  rewrite (cross_link_index decimal _ _ info 0%N Hidx eq_refl) in H.
  vm_compute in H. discriminate H.
Qed.

(** C7, amended. For a citation of a ['citations'] tuple whose identifier
    ends in ["search{N}"], with no more digits than [int] converts, and
    whose url is empty: when the tuple is merged (the cross-linking raises
    for none of its records), the record stored takes the url of the first
    search result with index [N] seen earlier in the turn, and its title
    only when the citation has no title of its own; if no such result was
    seen, the record is stored as it came and its url stays empty. *)
Theorem cross_link_from_search_results
    (decimal : N -> option N) (before : list Event) (m : gmap str Meta)
    (cite_id : str) (cite_info : Meta) (n : N) (st' : Turn) :
  m !! cite_id = Some cite_info →
  truthy_opt (meta_url cite_info) = false →
  search_index decimal cite_id = Some n →
  consume decimal (before ++ [Citations m]) start_of_turn = Completed st' →
  citation_metadata st' !! cite_id
  = Some
      match first_with_index n (search_results_of before) with
      | Some sr =>
          {| meta_url := Some (url sr);
             meta_title :=
               if truthy_opt (meta_title cite_info) then meta_title cite_info
               else Some (title sr) |}
      | None => cite_info
      end.
Proof.
  intros Hm Hurl Hidx. rewrite consume_snoc.
  destruct (consume decimal before start_of_turn) as [st|st] eqn:Hst;
    [|done].
  destruct (on_tuple decimal st (Citations m)) as [st1|] eqn:E; [|done].
  intros [= <-].
  rewrite (on_tuple_citations_lookup decimal _ _ _ cite_id E), Hm.
  pose proof (consume_search_results decimal _ _ _ Hst) as Hsrs.
  simpl in Hsrs. rewrite Hsrs.
  by rewrite (cross_link_index decimal _ _ _ n Hidx Hurl).
Qed.

Lemma cross_link_from_search_results_witness :
  ∃ st',
    consume ascii_decimal
      ([SearchResult found_source] ++ [Citations untitled_citation])
      start_of_turn = Completed st'
    ∧ citation_metadata st' !! lit "turn1search0"
      = Some {| meta_url := Some (lit "https://x");
                meta_title := Some (lit "X") |}.
Proof.
  eexists. split; [vm_compute; reflexivity|].
  exact (cross_link_from_search_results ascii_decimal
           [SearchResult found_source] untitled_citation
           (lit "turn1search0")
           {| meta_url := Some []; meta_title := Some [] |} 0%N _
           ltac:(vm_compute; reflexivity) eq_refl eq_refl
           ltac:(vm_compute; reflexivity)).
Defined.

(** * Further properties of the code *)

(** ** Vocabulary *)

Module CoverageSpec.

(** The character U+E200 that opens every citation marker. *)
Definition open_char : N := 57856%N.

(** The opening and closing lines of the references block. *)
Definition references_header : str :=
  lit "<div style=" ++ dquote
  ++ lit "margin-top:1rem;padding-top:0.5rem;border-top:1px solid #ddd;font-size:0.9em;"
  ++ dquote ++ lit ">" ++ lit "<strong>References:</strong><br>".

Definition references_footer : str := lit "</div>".

(** The ['content'] chunks among the tuples of a turn, in order. *)
Definition chunks_of (events : list Event) : list str :=
  omap (fun e => match e with Content c => Some c | _ => None end) events.

(** The ['final_content'] texts among the tuples, in order. *)
Definition finals_of (events : list Event) : list str :=
  omap (fun e => match e with FinalContent t => Some t | _ => None end)
       events.

(** The thoughts among the tuples, in order. *)
Definition thoughts_of (events : list Event) : list ThoughtInfo :=
  omap (fun e => match e with Thought t => Some t | _ => None end) events.

(** The suggestions among the tuples, in order. *)
Definition suggestions_of (events : list Event) : list str :=
  omap (fun e => match e with Suggestion s => Some s | _ => None end) events.

(** The tuples that come before the first ['content'] tuple. *)
Fixpoint before_streaming (events : list Event) : list Event :=
  match events with
  | [] => []
  | Content _ :: _ => []
  | e :: rest => e :: before_streaming rest
  end.

(** What a yielded tuple carries, tag by tag: a non-empty text, or a
    non-empty mapping with non-empty identifiers and complete records. A
    search result and a suggestion are under no such condition: the source
    yields them whatever their fields. *)
Definition well_formed_tuple (e : Event) : Prop :=
  match e with
  | Status msg => truthy msg = true
  | Thought t => truthy (th_text t) = true
  | Content chunk => truthy chunk = true
  | FinalContent full => truthy full = true
  | Citations citation_map =>
      citation_map ≠ ∅
      ∧ ∀ k v, citation_map !! k = Some v →
               truthy k = true
               ∧ is_Some (meta_url v) ∧ is_Some (meta_title v)
  | SearchResult _ | Suggestion _ => True
  end.

(** The first and the last character of a string. *)
Definition first_char (s : str) : option N := head s.
Definition last_char (s : str) : option N := last s.

End CoverageSpec.

Import CoverageSpec.

(** ** Lemmas *)

Module NormalizerCoverage.

Lemma has_char_cons c x s : has_char c (x :: s) = N.eqb c x || has_char c s.
Proof. reflexivity. Qed.

Lemma has_char_cons_false c x s :
  has_char c (x :: s) = false ↔ c ≠ x ∧ has_char c s = false.
Proof.
  rewrite has_char_cons, orb_false_iff, N.eqb_neq. done.
Qed.

Lemma match_at_open c s g r : match_at (c :: s) = Some (g, r) → c = open_char.
Proof.
  unfold match_at.
  destruct (strip_prefix cite_open (c :: s)) as [t|] eqn:E; [|congruence].
  intros _. apply strip_prefix_app in E.
  change cite_open with (open_char :: (lit "cite" ++ [57858%N])) in E.
  by injection E.
Qed.

Lemma tokens_without_open text :
  has_char open_char text = false → tokens text = List.map Chr text.
Proof.
  funelim (tokens text); simp tokens; [done| |].
  - intros [Hc _]%has_char_cons_false.
    by rewrite (match_at_open _ _ _ _ e) in Hc.
  - intros [_ Hc]%has_char_cons_false. simpl. f_equal. by apply H.
Qed.

Lemma spliced_chars f text : spliced f (List.map Chr text) = text.
Proof.
  induction text as [|c text IH]; [done|].
  simpl. by rewrite spliced_chr, IH.
Qed.

Lemma lazy_group_no_newline s g r :
  lazy_group s = Some (g, r) → has_char newline g = false.
Proof.
  revert g; induction s as [|c s IH]; simpl; intros g H; [congruence|].
  destruct (N.eqb c cite_close); [by inversion H|].
  destruct (N.eqb_spec c newline) as [|Hne]; [congruence|].
  destruct (lazy_group s) as [[g' r']|]; [|congruence].
  inversion H; subst. apply has_char_cons_false.
  split; [congruence|]. by apply IH.
Qed.

Lemma match_at_group s g r :
  match_at s = Some (g, r) → g ≠ [] ∧ has_char newline g = false.
Proof.
  unfold match_at. destruct (strip_prefix cite_open s) as [t|]; [|congruence].
  unfold group1. destruct t as [|c t]; [congruence|].
  destruct (N.eqb_spec c newline) as [|Hne]; [congruence|].
  destruct (lazy_group t) as [[g' r']|] eqn:L; [|congruence].
  intros H; inversion H; subst. split; [done|].
  apply has_char_cons_false. split; [congruence|].
  by apply (lazy_group_no_newline _ _ _ L).
Qed.

Lemma markers_occur text id :
  id ∈ markers text →
  id ≠ [] ∧ has_char newline id = false
  ∧ ∃ pre post, text = pre ++ cite_open ++ id ++ [cite_close] ++ post.
Proof.
  unfold markers. revert id. funelim (tokens text); simp tokens; intros id.
  - by intros ?%elem_of_nil.
  - simpl. intros [->|Hin]%elem_of_cons.
    + destruct (match_at_group _ _ _ e) as [Hne Hnl].
      split; [done|]. split; [done|].
      exists [], r. by rewrite (match_at_app _ _ _ e).
    + destruct (H _ Hin) as (Hne & Hnl & pre & post & Hr).
      split; [done|]. split; [done|].
      exists (cite_open ++ g ++ [cite_close] ++ pre), post.
      rewrite (match_at_app _ _ _ e), Hr at 1. by rewrite <- !app_assoc.
  - simpl. intros Hin. destruct (H _ Hin) as (Hne & Hnl & pre & post & Hr).
    split; [done|]. split; [done|].
    exists (c :: pre), post. by rewrite Hr at 1.
Qed.

Lemma tokens_without_open_clean text use_html citation_metadata :
  has_char open_char text = false →
  clean_citations text use_html citation_metadata = (text, []).
Proof.
  intros Hc. rewrite clean_citations_closed_form.
  unfold markers. rewrite (tokens_without_open text Hc).
  rewrite spliced_chars. f_equal.
  induction text as [|c text IH]; [done|].
  simpl. apply IH. by apply has_char_cons_false in Hc as [_ ?].
Qed.

End NormalizerCoverage.

Import NormalizerCoverage.

(** ** The citation normaliser, continued *)

(** X1. A text that does not contain the character U+E200 has no citation
    marker: [clean_citations] returns it unchanged, with an empty mapping,
    in either mode and whatever the metadata. *)
Theorem clean_citations_without_markers
    (text : str) (use_html : bool) (citation_metadata : option (gmap str Meta)) :
  has_char open_char text = false →
  clean_citations text use_html citation_metadata = (text, []).
Proof.
  intros Hc. rewrite clean_citations_closed_form.
  unfold markers. rewrite (tokens_without_open text Hc).
  rewrite spliced_chars. f_equal.
  induction text as [|c text IH]; [done|].
  simpl. apply IH. by apply has_char_cons_false in Hc as [_ ?].
Qed.

Lemma clean_citations_without_markers_witness :
  clean_citations (lit "No sources [1] here.") true None
  = (lit "No sources [1] here.", []).
Proof.
  apply (clean_citations_without_markers (lit "No sources [1] here.")).
  reflexivity.
Defined.

(** X2. Every identifier that [clean_citations] numbers is non-empty,
    contains no newline, and stands in the text between the opening
    delimiter and the closing character of a marker. *)
Theorem clean_citations_identifiers
    (text : str) (use_html : bool) (citation_metadata : option (gmap str Meta))
    (i num : nat) (ref : Ref) :
  snd (clean_citations text use_html citation_metadata) !! i
    = Some (num, ref) →
  ref_id ref ≠ []
  ∧ has_char newline (ref_id ref) = false
  ∧ ∃ pre post,
      text = pre ++ cite_open ++ ref_id ref ++ [cite_close] ++ post.
Proof.
  rewrite clean_citations_closed_form. cbn [snd]. intros Hi.
  apply markers_occur. apply elem_of_first_seen.
  rewrite <- (numbered_ids (default ∅ citation_metadata) 0
                (first_seen (markers text))).
  apply list_elem_of_fmap. exists ref. split; [done|].
  apply list_elem_of_fmap. exists (num, ref). split; [done|].
  by apply list_elem_of_lookup_2 in Hi.
Qed.

Lemma clean_citations_identifiers_witness :
  ∃ pre post,
    answer_text = pre ++ cite_open ++ lit "turn1search0" ++ [cite_close] ++ post.
Proof.
  exact (proj2 (proj2
    (clean_citations_identifiers answer_text false None 0 1
       {| ref_id := lit "turn1search0"; ref_url := [];
          ref_title := lit "Source 1" |}
       ltac:(vm_compute; reflexivity)))).
Defined.

(** X3. Without [use_html] no link is ever written: the cleaned text is
    the text with every marker, as the text itself is read, replaced by the
    number of its identifier in decimal between square brackets, so it does
    not depend on the metadata, even when it gives a url. *)
Theorem clean_citations_plain_mode
    (text : str) (citation_metadata : option (gmap str Meta)) :
  scans text (tokens text)
  ∧ fst (clean_citations text false citation_metadata)
    = spliced (fun g => lit "[" ++ str_of_nat (number_of text g) ++ lit "]")
              (tokens text)
  ∧ (∀ n, nat_of_str (str_of_nat n) = Some n)
  ∧ fst (clean_citations text false citation_metadata)
    = fst (clean_citations text false None).
Proof.
  rewrite !clean_citations_closed_form. cbn [fst].
  split; [apply tokens_scans|]. split; [done|].
  split; [apply nat_of_str_of_nat|done].
Qed.

Module ReferencesFacts.

Lemma refs_get_elem (citations : list (nat * Ref)) num ref :
  NoDup citations.*1 → (num, ref) ∈ citations →
  refs_get num citations = Some ref.
Proof.
  induction citations as [|[k v] citations IH]; simpl.
  - by intros _ ?%elem_of_nil.
  - intros [Hk Hnd]%NoDup_cons [[= -> ->]|Hin]%elem_of_cons.
    + by rewrite decide_True.
    + rewrite decide_False; [by apply IH|].
      intros ->. apply Hk. apply list_elem_of_fmap. by exists (k, ref).
Qed.

Lemma refs_get_absent (citations : list (nat * Ref)) num :
  num ∉ citations.*1 → refs_get num citations = None.
Proof.
  induction citations as [|[k v] citations IH]; simpl; [done|].
  intros Hnot. rewrite decide_False.
  - apply IH. intros ?. apply Hnot. by apply list_elem_of_further.
  - intros ->. apply Hnot. apply list_elem_of_here.
Qed.

Lemma sorted_keys_seq k n : merge_sort Nat.le (seq k n) = seq k n.
Proof.
  apply (Sorted_unique Nat.le).
  - apply (Sorted_merge_sort Nat.le).
  - revert k; induction n as [|n IH]; intros k; simpl; [constructor|].
    constructor; [apply IH|].
    destruct n; simpl; constructor. unfold Nat.le. lia.
  - apply merge_sort_Permutation.
Qed.

Lemma lines_of_keys (citations all : list (nat * Ref)) :
  NoDup all.*1 → citations ⊆ all →
  List.map (fun num => match refs_get num all with
                       | Some cite => reference_line num cite
                       | None => []
                       end) citations.*1
  = List.map (fun p => reference_line p.1 p.2) citations.
Proof.
  intros Hnd. induction citations as [|[k v] citations IH]; intros Hsub;
    simpl; [done|].
  rewrite (refs_get_elem all k v Hnd) by (apply Hsub, list_elem_of_here).
  f_equal. apply IH. intros x Hx. by apply Hsub, list_elem_of_further.
Qed.

Lemma numbered_nil md k ids : numbered md k ids = [] ↔ ids = [].
Proof. by destruct ids. Qed.

End ReferencesFacts.

Import ReferencesFacts.

(** X4. [format_references_html] lists the entries by ascending number
    whatever the order of the mapping it is given: for a mapping with no
    number twice, the block is the opening line, the line of every entry
    taken in ascending order of the numbers, and the closing line; for the
    empty mapping it is the empty string. *)
Theorem format_references_html_order
    (citations sorted : list (nat * Ref)) :
  sorted ≡ₚ citations →
  NoDup citations.*1 →
  Sorted Nat.le sorted.*1 →
  format_references_html citations
  = if decide (citations = []) then []
    else references_header
         ++ concat (List.map (fun p => reference_line p.1 p.2) sorted)
         ++ references_footer.
Proof.
  intros Hp Hnd Hs. unfold format_references_html.
  destruct citations as [|c citations]; [done|].
  rewrite decide_False by done.
  set (all := c :: citations) in *.
  assert (merge_sort Nat.le (List.map fst all) = sorted.*1) as ->.
  { apply (Sorted_unique Nat.le).
    - apply (Sorted_merge_sort Nat.le).
    - done.
    - rewrite merge_sort_Permutation. symmetry.
      by apply (fmap_Permutation fst). }
  rewrite (lines_of_keys sorted all Hnd).
  - unfold references_header, references_footer. by rewrite <- !app_assoc.
  - intros x Hx. by rewrite <- Hp.
Qed.

Lemma format_references_html_order_witness :
  format_references_html
    [(2, {| ref_id := lit "b"; ref_url := []; ref_title := lit "B" |});
     (1, {| ref_id := lit "a"; ref_url := lit "https://a";
            ref_title := lit "A" |})]
  = references_header
    ++ concat
         [reference_line 1
            {| ref_id := lit "a"; ref_url := lit "https://a";
               ref_title := lit "A" |};
          reference_line 2
            {| ref_id := lit "b"; ref_url := []; ref_title := lit "B" |}]
    ++ references_footer.
Proof.
  apply (format_references_html_order
           [(2, {| ref_id := lit "b"; ref_url := []; ref_title := lit "B" |});
            (1, {| ref_id := lit "a"; ref_url := lit "https://a";
                   ref_title := lit "A" |})]
           [(1, {| ref_id := lit "a"; ref_url := lit "https://a";
                   ref_title := lit "A" |});
            (2, {| ref_id := lit "b"; ref_url := []; ref_title := lit "B" |})]).
  - apply perm_swap.
  - apply (bool_decide_unpack (NoDup _)). vm_compute. reflexivity.
  - repeat constructor.
Defined.

(** X5. The references block made from what [clean_citations] returns is
    empty exactly when the text has no marker, and otherwise holds, between
    its opening and closing lines, one line per distinct identifier in the
    order of the numbers. *)
Theorem references_of_clean_citations
    (text : str) (use_html : bool) (citation_metadata : option (gmap str Meta)) :
  let by_num := snd (clean_citations text use_html citation_metadata) in
  (by_num = [] ↔ markers text = [])
  ∧ format_references_html by_num
    = if decide (by_num = []) then []
      else references_header
           ++ concat (List.map (fun p => reference_line p.1 p.2) by_num)
           ++ references_footer.
Proof.
  intros by_num. subst by_num. rewrite clean_citations_closed_form.
  cbn [snd]. set (md := default ∅ citation_metadata).
  set (ids := first_seen (markers text)).
  split.
  - rewrite numbered_nil. subst ids.
    destruct (markers text) as [|g l]; [done|]. split; discriminate.
  - unfold format_references_html.
    destruct (numbered md 0 ids) as [|c l] eqn:E; [done|].
    rewrite decide_False by done. rewrite <- E.
    change (List.map fst (numbered md 0 ids)) with ((numbered md 0 ids).*1).
    rewrite (numbered_keys md 0 ids) at 1.
    rewrite sorted_keys_seq, <- (numbered_keys md 0 ids).
    rewrite (lines_of_keys (numbered md 0 ids) (numbered md 0 ids)).
    + unfold references_header, references_footer.
      by rewrite <- !app_assoc.
    + rewrite numbered_keys. apply NoDup_seq.
    + done.
Qed.

(** ** The client wrapper, continued *)

Module ClientCoverage.

Lemma greet_deliver_all_then acts t welcome_text self :
  greet (deliver_all acts t) welcome_text self
  = greet t (welcome_text ++ lines (texts acts))
      {| _client := _client self;
         _conversation_id :=
           match last (conversation_ids acts) with
           | Some id => Some id
           | None => _conversation_id self
           end |}.
Proof.
  revert welcome_text self.
  induction acts as [|a acts IH]; intros welcome_text self; simpl.
  - rewrite app_nil_r. by destruct self.
  - rewrite IH. unfold texts, conversation_ids, lines. simpl.
    destruct (truthy_opt (text a)) eqn:Ht.
    + destruct (text a) as [t0|] eqn:Hta; [|done]. simpl.
      rewrite <- !app_assoc. simpl.
      destruct (conversation a) as [id|]; simpl; [|done].
      rewrite last_cons. by destruct (last _).
    + destruct (conversation a) as [id|]; simpl; [|done].
      rewrite last_cons. by destruct (last _).
Qed.

Lemma add_entity_invariant citation_map ent :
  (∀ k v, citation_map !! k = Some v →
          truthy k = true ∧ is_Some (meta_url v) ∧ is_Some (meta_title v)) →
  ∀ k v, add_entity citation_map ent !! k = Some v →
         truthy k = true ∧ is_Some (meta_url v) ∧ is_Some (meta_title v).
Proof.
  intros Hm k v. unfold add_entity.
  destruct ent as [d|d|]; [| |by apply Hm].
  all: destruct (_ || _); [|by apply Hm].
  all: destruct (truthy _) eqn:Hk; [|by apply Hm].
  all: destruct (decide (first_truthy [ent_at_id d; ent_id d] = k))
         as [<-|Hne].
  all: try (rewrite lookup_insert_eq; intros [= <-]; simpl; by eauto).
  all: rewrite lookup_insert_ne by done; by apply Hm.
Qed.

Lemma fold_add_entity_invariant ents citation_map :
  (∀ k v, citation_map !! k = Some v →
          truthy k = true ∧ is_Some (meta_url v) ∧ is_Some (meta_title v)) →
  ∀ k v, fold_left add_entity ents citation_map !! k = Some v →
         truthy k = true ∧ is_Some (meta_url v) ∧ is_Some (meta_title v).
Proof.
  revert citation_map. induction ents as [|ent ents IH]; intros m Hm; simpl;
    [done|].
  apply IH. by apply add_entity_invariant.
Qed.

Lemma on_reply_well_formed reply e :
  e ∈ fst (on_reply reply) → well_formed_tuple e.
Proof.
  unfold on_reply. destruct (type reply); simpl.
  - unfold on_message. rewrite !elem_of_app. intros [H|[H|H]].
    + destruct (decide (_ = ∅)) as [|Hne]; [by apply elem_of_nil in H|].
      apply list_elem_of_singleton in H. subst e. simpl. split; [done|].
      apply fold_add_entity_invariant. intros k v. by rewrite lookup_empty.
    + destruct (text reply) as [t|]; simpl in H; [|by apply elem_of_nil in H].
      destruct (truthy t) eqn:Ht; [|by apply elem_of_nil in H].
      destruct (_ || _); [|by apply elem_of_nil in H].
      apply list_elem_of_singleton in H. by subst e.
    + destruct (suggested_actions reply) as [a|];
        [|by apply elem_of_nil in H].
      destruct (decide (a = [])); [by apply elem_of_nil in H|].
      apply list_elem_of_singleton in H. by subst e.
  - unfold on_typing.
    destruct (as_dict _ _) as [cd|]; [|by intros ?%elem_of_nil].
    destruct (text reply) as [t|]; simpl.
    + destruct (truthy t) eqn:Ht.
      * destruct (bool_decide _); simpl.
        { intros H. apply list_elem_of_singleton in H. by subst e. }
        destruct (bool_decide _); simpl; [|by intros ?%elem_of_nil].
        intros H. apply list_elem_of_singleton in H. by subst e.
      * rewrite !andb_false_r. by intros ?%elem_of_nil.
    + rewrite !andb_false_r. by intros ?%elem_of_nil.
  - unfold on_event.
    destruct (as_dict _ _) as [v|]; [|by intros ?%elem_of_nil].
    rewrite elem_of_app. intros [H|H].
    + destruct (thought v) as [t|]; simpl in H; [|by apply elem_of_nil in H].
      destruct (truthy t) eqn:Ht; [|by apply elem_of_nil in H].
      apply list_elem_of_singleton in H. by subst e.
    + destruct (as_dict _ (observation v)) as [o|];
        [|by apply elem_of_nil in H].
      destruct (as_dict _ (search_result o)) as [so|];
        [|by apply elem_of_nil in H].
      revert H. generalize 0.
      induction (default [] (Client.search_results so)) as [|item l IH];
        intros n H; simpl in H; [by apply elem_of_nil in H|].
      destruct item as [res|].
      * apply elem_of_cons in H as [->|H]; [done|]. by apply (IH (S n)).
      * by apply (IH (S n)).
  - intros H. apply list_elem_of_singleton in H. by subst e.
  - by intros ?%elem_of_nil.
Qed.

Lemma pump_well_formed self t e :
  e ∈ yielded (pump self t) → well_formed_tuple e.
Proof.
  induction t as [| |reply rest IH]; simpl.
  - by intros ?%elem_of_nil.
  - by intros ?%elem_of_nil.
  - pose proof (on_reply_well_formed reply e) as Hr.
    destruct (on_reply reply) as [out [|]]; simpl in *; [done|].
    rewrite elem_of_app. intros [H|H]; [by apply Hr|by apply IH].
Qed.

End ClientCoverage.

Import ClientCoverage.

(** X6. With a conversation set, when the stream of a send delivers its
    activities, none of them an end of conversation, and is then exhausted,
    [send_message] yields the tuples of all of them in order and ends
    normally with nothing left unread. *)
Theorem send_message_exhausted
    (self : CopilotStudioClient) (message conversation_id : str)
    (acts : list Activity) :
  _conversation_id self = Some conversation_id →
  truthy conversation_id = true →
  sdk_ask_question (_client self) message conversation_id
    = deliver_all acts Exhausted →
  Forall (fun a => type a ≠ end_of_conversation) acts →
  send_message self message
  = {| yielded := tuples_for acts;
       ending := StopAsyncIteration;
       unread := Some Exhausted;
       self_after := self |}.
Proof.
  intros Hid Hset Hask Hacts.
  unfold send_message. rewrite Hid, Hset, Hask.
  rewrite pump_deliver_all by done. simpl. by rewrite app_nil_r.
Qed.

Definition streaming_client : CopilotStudioClient :=
  {| _client :=
       sdk Exhausted
         (Deliver (delta (lit "Hel")) (Deliver (delta (lit "lo")) Exhausted));
     _conversation_id := Some (lit "conv-1") |}.

Lemma send_message_exhausted_witness :
  send_message streaming_client (lit "hi")
  = {| yielded := [Content (lit "Hel"); Content (lit "lo")];
       ending := StopAsyncIteration;
       unread := Some Exhausted;
       self_after := streaming_client |}.
Proof.
  apply (send_message_exhausted streaming_client (lit "hi") (lit "conv-1")
           [delta (lit "Hel"); delta (lit "lo")]).
  - reflexivity.
  - reflexivity.
  - reflexivity.
  - repeat constructor; simpl; discriminate.
Defined.

(** X7. When the transport fails after delivering some activities, none of
    them an end of conversation, the tuples of those activities have been
    yielded and the failure then propagates out of [send_message]: nothing
    is retried and nothing is caught. *)
Theorem send_message_transport_failure
    (self : CopilotStudioClient) (message conversation_id : str)
    (acts : list Activity) :
  _conversation_id self = Some conversation_id →
  truthy conversation_id = true →
  sdk_ask_question (_client self) message conversation_id
    = deliver_all acts Broken →
  Forall (fun a => type a ≠ end_of_conversation) acts →
  send_message self message
  = {| yielded := tuples_for acts;
       ending := Propagated;
       unread := Some Broken;
       self_after := self |}.
Proof.
  intros Hid Hset Hask Hacts.
  unfold send_message. rewrite Hid, Hset, Hask.
  rewrite pump_deliver_all by done. simpl. by rewrite app_nil_r.
Qed.

Definition failing_client : CopilotStudioClient :=
  {| _client := sdk Exhausted (Deliver (delta (lit "Hel")) Broken);
     _conversation_id := Some (lit "conv-1") |}.

Lemma send_message_transport_failure_witness :
  send_message failing_client (lit "hi")
  = {| yielded := [Content (lit "Hel")];
       ending := Propagated;
       unread := Some Broken;
       self_after := failing_client |}.
Proof.
  apply (send_message_transport_failure failing_client (lit "hi")
           (lit "conv-1") [delta (lit "Hel")]).
  - reflexivity.
  - reflexivity.
  - reflexivity.
  - repeat constructor; simpl; discriminate.
Defined.

(** X8. Among the tuples yielded by [send_message], a status, a thought, a
    content chunk and a final content carry a non-empty text, and a
    citations tuple carries a non-empty mapping whose identifiers are
    non-empty and whose records have both the [url] and the [title] key.
    The other two tags are not so: a search result is yielded whatever its
    fields, and a suggestion is the empty string when the one action offered
    has an empty title (see [send_message_empty_suggestion] below). *)
Theorem send_message_tuples_well_formed
    (self : CopilotStudioClient) (message : str) (e : Event) :
  e ∈ yielded (send_message self message) → well_formed_tuple e.
Proof.
  unfold send_message.
  destruct (_conversation_id self) as [c|].
  - destruct (truthy c); [apply pump_well_formed|].
    simpl. intros H. apply list_elem_of_singleton in H. by subst e.
  - simpl. intros H. apply list_elem_of_singleton in H. by subst e.
Qed.

Lemma send_message_tuples_well_formed_witness :
  well_formed_tuple (Content (lit "Hel")).
Proof.
  apply (send_message_tuples_well_formed streaming_client (lit "hi")).
  vm_compute. apply list_elem_of_here.
Defined.

(** A message whose one suggested action has the empty title: the list of
    titles is not empty, so the tuple is yielded, with the empty string. *)
Definition untitled_action_client : CopilotStudioClient :=
  {| _client :=
       sdk Exhausted
         (Deliver
            {| type := message; text := None; channel_data := Unset;
               entities := None; value := Unset;
               suggested_actions := Some [[]]; conversation := None |}
            Exhausted);
     _conversation_id := Some (lit "conv-1") |}.

Example send_message_empty_suggestion :
  yielded (send_message untitled_action_client (lit "hi")) = [Suggestion []].
Proof. vm_compute. reflexivity. Qed.

Module ClientCoverage2.

(** The record yielded for the dict [res] found at position [i]. *)
Definition search_info_at (i : nat) (res : SearchHit) : SearchInfo :=
  {| index := i;
     url := first_truthy [hit_Url res; hit_url res];
     title := first_truthy [hit_Name res; hit_name res];
     source_id := first_truthy [hit_SourceId res] |}.

Lemma enumerate_results_elem k results sr :
  SearchResult sr ∈ enumerate_results k results
  ↔ ∃ i res, results !! i = Some (HitDict res)
             ∧ sr = search_info_at (k + i) res.
Proof.
  revert k; induction results as [|item results IH]; intros k; simpl.
  - split; [by intros ?%elem_of_nil|]. by intros (i & res & ? & _).
  - destruct item as [res|].
    + rewrite elem_of_cons, IH. split.
      * intros [[= ->]|(i & res' & Hi & ->)].
        -- exists 0, res. by rewrite Nat.add_0_r.
        -- exists (S i), res'. by rewrite Nat.add_succ_r.
      * intros ([|i] & res' & Hi & ->); simpl in Hi.
        -- left. injection Hi as ->. by rewrite Nat.add_0_r.
        -- right. exists i, res'. by rewrite Nat.add_succ_r.
    + rewrite IH. split.
      * intros (i & res' & Hi & ->). exists (S i), res'.
        by rewrite Nat.add_succ_r.
      * intros ([|i] & res' & Hi & ->); simpl in Hi; [done|].
        exists i, res'. by rewrite Nat.add_succ_r.
Qed.

Lemma enumerate_results_sorted k results :
  StronglySorted lt
    (index <$> search_results_of (enumerate_results k results))
  ∧ Forall (fun i => k ≤ i)
      (index <$> search_results_of (enumerate_results k results)).
Proof.
  revert k; induction results as [|[res|] results IH]; intros k; simpl.
  - split; constructor.
  - destruct (IH (S k)) as [Hs Hf]. split.
    + constructor; [done|]. eapply Forall_impl; [exact Hf|].
      simpl. intros i Hi. lia.
    + constructor; [done|]. eapply Forall_impl; [exact Hf|].
      simpl. intros i Hi. lia.
  - destruct (IH (S k)) as [Hs Hf]. split; [done|].
    eapply Forall_impl; [exact Hf|]. simpl. intros i Hi. lia.
Qed.

Lemma lstrip_head s c : head (lstrip s) = Some c → is_space c = false.
Proof.
  induction s as [|x s IH]; simpl; [done|].
  destruct (is_space x) eqn:Hx; [done|]. simpl. by intros [= <-].
Qed.

Lemma lstrip_split s :
  ∃ sp, s = sp ++ lstrip s ∧ Forall (fun c => is_space c = true) sp.
Proof.
  induction s as [|x s IH]; simpl.
  - exists []. by split.
  - destruct (is_space x) eqn:Hx.
    + destruct IH as (sp & Hs & Hsp). exists (x :: sp). split.
      * simpl. by rewrite <- Hs.
      * by constructor.
    + exists []. by split.
Qed.

Lemma lstrip_all_space s :
  Forall (fun c => is_space c = true) s → lstrip s = [].
Proof. induction 1 as [|x s Hx _ IH]; simpl; [done|]. by rewrite Hx. Qed.

Lemma last_rev (s : str) : last (rev s) = head s.
Proof.
  destruct s as [|x s]; simpl; [done|]. by rewrite last_snoc.
Qed.

Lemma head_rev (s : str) : head (rev s) = last s.
Proof. by rewrite <- (rev_involutive s) at 2; rewrite last_rev. Qed.

Lemma strip_ends s c :
  (first_char (strip s) = Some c → is_space c = false)
  ∧ (last_char (strip s) = Some c → is_space c = false).
Proof.
  unfold first_char, last_char, strip. split.
  - destruct (lstrip_split (rev (lstrip s))) as (sp & Hs & _).
    set (u := lstrip (rev (lstrip s))) in *.
    intros Hh. apply (lstrip_head s).
    assert (lstrip s = rev u ++ rev sp) as ->.
    { by rewrite <- rev_app_distr, <- Hs, rev_involutive. }
    by destruct (rev u).
  - rewrite last_rev. apply lstrip_head.
Qed.

Lemma after_last_app c pre name :
  has_char c name = false → after_last c (pre ++ c :: name) = name.
Proof.
  intros Hc. unfold after_last.
  rewrite rev_app_distr. simpl. rewrite <- app_assoc. simpl.
  rewrite until_app_absent by (by rewrite has_char_rev).
  apply rev_involutive.
Qed.

Lemma has_char_app c a b : has_char c (a ++ b) = has_char c a || has_char c b.
Proof. apply existsb_app. Qed.

End ClientCoverage2.

Import ClientCoverage2.

(** X9. For an event activity that carries a list of search results, the
    ['search_result'] tuples yielded are exactly the records of the dicts
    of the list, each with its position in the list as [index] (an entry
    that is not a dict is skipped but still counted), and they come in
    increasing order of [index]. *)
Theorem event_search_results
    (reply : Activity) (v : EventValue) (o : Observation) (so : SearchOutcome)
    (results : list ResultItem) (sr : SearchInfo) :
  type reply = event →
  value reply = Dict v →
  observation v = Dict o →
  search_result o = Dict so →
  Client.search_results so = Some results →
  (SearchResult sr ∈ fst (on_reply reply)
   ↔ ∃ i res, results !! i = Some (HitDict res) ∧ sr = search_info_at i res)
  ∧ StronglySorted lt (index <$> search_results_of (fst (on_reply reply))).
Proof.
  intros Htype Hv Ho Hso Hres.
  unfold on_reply. rewrite Htype. unfold on_event. rewrite Hv.
  cbn [as_dict fst]. rewrite Ho. cbn [as_dict]. rewrite Hso. cbn [as_dict].
  rewrite Hres. cbn [default]. unfold id.
  split.
  - rewrite elem_of_app, (enumerate_results_elem 0 results sr). split.
    + intros [H|H]; [|done].
      destruct (truthy_opt (thought v)); [|by apply elem_of_nil in H].
      by apply list_elem_of_singleton in H.
    + intros H. by right.
  - unfold search_results_of. rewrite omap_app.
    destruct (truthy_opt (thought v)); simpl;
      apply (enumerate_results_sorted 0 results).
Qed.

Definition two_hits : list ResultItem :=
  [HitOther;
   HitDict {| hit_Url := Some (lit "https://x"); hit_url := None;
              hit_Name := None; hit_name := Some (lit "X");
              hit_SourceId := None |}].

Definition search_activity : Activity :=
  {| type := event; text := None; channel_data := Unset; entities := None;
     value :=
       Dict {| thought := None; taskDialogId := None; state := None;
               observation :=
                 Dict {| search_result :=
                           Dict {| Client.search_results := Some two_hits |}
                      |} |};
     suggested_actions := None; conversation := None |}.

Lemma event_search_results_witness :
  SearchResult {| index := 1; url := lit "https://x"; title := lit "X";
                  source_id := [] |}
  ∈ fst (on_reply search_activity).
Proof.
  apply (proj1 (event_search_results search_activity _ _ _ two_hits _
                  eq_refl eq_refl eq_refl eq_refl eq_refl)).
  exists 1. eexists. split; reflexivity.
Defined.

(** X10. When the greeting stream fails, [start_conversation] lets the
    failure propagate, but the client keeps the last conversation
    identifier seen before the failure. *)
Theorem start_conversation_transport_failure
    (self : CopilotStudioClient) (acts : list Activity) :
  sdk_start_conversation (_client self) = deliver_all acts Broken →
  start_conversation self
  = (None,
     {| _client := _client self;
        _conversation_id :=
          match last (conversation_ids acts) with
          | Some id => Some id
          | None => _conversation_id self
          end |}).
Proof.
  intros Hs. unfold start_conversation.
  by rewrite Hs, greet_deliver_all_then.
Qed.

Definition broken_greeting_sdk : CopilotClient :=
  sdk (Deliver (hello (lit "Hi") (lit "conv-A")) Broken) Exhausted.

Lemma start_conversation_transport_failure_witness :
  start_conversation (init broken_greeting_sdk)
  = (None,
     {| _client := broken_greeting_sdk;
        _conversation_id := Some (lit "conv-A") |}).
Proof.
  apply (start_conversation_transport_failure (init broken_greeting_sdk)
           [hello (lit "Hi") (lit "conv-A")]).
  reflexivity.
Defined.

(** X11. After [start_conversation] on a new client, [send_message] asks
    the SDK with the last identifier the greeting carried; when the
    greeting carried none (or an empty one), it yields the single error
    tuple and asks nothing. *)
Theorem send_message_after_start
    (sdk : CopilotClient) (acts : list Activity) (message : str) :
  sdk_start_conversation sdk = deliver_all acts Exhausted →
  let self := snd (start_conversation (init sdk)) in
  send_message self message
  = if truthy_opt (last (conversation_ids acts)) then
      pump self
        (sdk_ask_question sdk message
           (default [] (last (conversation_ids acts))))
    else
      {| yielded := [Content (lit "Error: No active conversation.")];
         ending := StopAsyncIteration; unread := None; self_after := self |}.
Proof.
  intros Hs self. subst self. unfold start_conversation. simpl.
  rewrite Hs, greet_deliver_all_then. simpl.
  unfold send_message. simpl.
  destruct (last (conversation_ids acts)) as [c|]; simpl; [|done].
  by destruct (truthy c).
Qed.

Lemma send_message_after_start_witness :
  yielded (send_message (snd (start_conversation
                                (init (sdk (Deliver (activity message
                                                       (Some (lit "Hi")))
                                              Exhausted)
                                           Broken))))
             (lit "hello"))
  = [Content (lit "Error: No active conversation.")].
Proof.
  rewrite (send_message_after_start _
             [activity message (Some (lit "Hi"))] (lit "hello")).
  - reflexivity.
  - reflexivity.
Defined.

(** X12. A welcome message returned by [start_conversation] neither
    starts nor ends with a white-space character; in particular it does not
    end with the newline that is added after every text. *)
Theorem start_conversation_welcome_stripped
    (self self' : CopilotStudioClient) (welcome : str) (c : N) :
  start_conversation self = (Some (Some welcome), self') →
  (first_char welcome = Some c → is_space c = false)
  ∧ (last_char welcome = Some c → is_space c = false).
Proof.
  unfold start_conversation.
  destruct (greet _ _ _) as [[e w] s'].
  destruct e; [|done].
  destruct (truthy w); [|done].
  intros [= <- _]. apply strip_ends.
Qed.

Lemma start_conversation_welcome_stripped_witness :
  is_space 101%N = false.
Proof.
  exact (proj2 (start_conversation_welcome_stripped (init two_ids_sdk)
                  {| _client := two_ids_sdk;
                     _conversation_id := Some (lit "conv-B") |}
                  (lit "Hi" ++ [newline] ++ lit "there") 101%N eq_refl)
               eq_refl).
Defined.

(** X13. A greeting whose texts hold nothing but white space makes
    [start_conversation] return the empty string, not [None]: [None] is
    returned only when no activity carried a non-empty text. *)
Theorem start_conversation_blank_welcome
    (self : CopilotStudioClient) (acts : list Activity) :
  sdk_start_conversation (_client self) = deliver_all acts Exhausted →
  texts acts ≠ [] →
  Forall (Forall (fun c => is_space c = true)) (texts acts) →
  fst (start_conversation self) = Some (Some []).
Proof.
  intros Hs Hne Hblank. unfold start_conversation.
  rewrite Hs, greet_deliver_all_then. simpl.
  assert (Forall (fun c => is_space c = true) (lines (texts acts))) as Hall.
  { clear -Hblank. unfold lines.
    induction Hblank as [|t ts Ht _ IH]; simpl; [constructor|].
    rewrite Forall_app. split; [|done].
    rewrite Forall_app. split; [done|]. by constructor. }
  destruct (texts acts) as [|t ts]; [done|].
  assert (truthy (lines (t :: ts)) = true) as -> by (by destruct t).
  unfold strip. by rewrite (lstrip_all_space _ Hall).
Qed.

Lemma start_conversation_blank_welcome_witness :
  fst (start_conversation
         (init (sdk (Deliver (activity message (Some (lit "  "))) Exhausted)
                    Exhausted)))
  = Some (Some []).
Proof.
  apply (start_conversation_blank_welcome _
           [activity message (Some (lit "  "))]).
  - reflexivity.
  - discriminate.
  - repeat constructor.
Defined.

(** X14. For a task identifier of the form [prefix:name], the label is
    [name], provided [name] contains neither a colon nor ["-InvokeServer"];
    for [prefix.name] without any colon the same holds, provided [name]
    contains no dot either. *)
Theorem task_name_of_suffix (pre name : str) :
  contains (lit "-InvokeServer") name = false →
  has_char colon name = false →
  task_name_of (pre ++ colon :: name) = name
  ∧ (has_char colon pre = false → has_char dot name = false →
     task_name_of (pre ++ dot :: name) = name).
Proof.
  intros Hm Hc. split.
  - destruct (task_name_of_base (pre ++ colon :: name)) as [-> _].
    unfold task_base.
    assert (has_char colon (pre ++ colon :: name) = true) as ->.
    { rewrite has_char_app, has_char_cons, N.eqb_refl. apply orb_true_r. }
    rewrite after_last_app by done. by apply remove_all_absent.
  - intros Hp Hd.
    destruct (task_name_of_base (pre ++ dot :: name)) as [-> _].
    unfold task_base.
    assert (has_char colon (pre ++ dot :: name) = false) as ->.
    { rewrite has_char_app, has_char_cons, Hp, Hc. reflexivity. }
    assert (has_char dot (pre ++ dot :: name) = true) as ->.
    { rewrite has_char_app, has_char_cons, N.eqb_refl. apply orb_true_r. }
    rewrite after_last_app by done. by apply remove_all_absent.
Qed.

Lemma task_name_of_suffix_witness :
  task_name_of (lit "P" ++ colon :: lit "UniversalSearchTool")
  = lit "UniversalSearchTool".
Proof.
  exact (proj1 (task_name_of_suffix (lit "P") (lit "UniversalSearchTool")
                  ltac:(vm_compute; reflexivity)
                  ltac:(vm_compute; reflexivity))).
Defined.

(** X15. One activity never yields both a ['content'] and a
    ['final_content'] tuple: a content chunk comes only from a typing
    activity and a final content only from a message activity, and either
    carries the text of its activity. *)
Theorem content_and_final_content_apart (reply : Activity) (t : str) :
  (Content t ∈ fst (on_reply reply) →
   type reply = typing ∧ text reply = Some t)
  ∧ (FinalContent t ∈ fst (on_reply reply) →
     type reply = message ∧ text reply = Some t).
Proof.
  unfold on_reply. destruct (type reply); simpl.
  - split.
    + unfold on_message. rewrite !elem_of_app. intros [H|[H|H]].
      * destruct (decide (_ = ∅)); [by apply elem_of_nil in H|].
        by apply list_elem_of_singleton in H.
      * destruct (truthy_opt (text reply)); [|by apply elem_of_nil in H].
        destruct (_ || _); [|by apply elem_of_nil in H].
        by apply list_elem_of_singleton in H.
      * destruct (suggested_actions reply) as [a|];
          [|by apply elem_of_nil in H].
        destruct (decide (a = [])); [by apply elem_of_nil in H|].
        by apply list_elem_of_singleton in H.
    + unfold on_message. rewrite !elem_of_app. intros [H|[H|H]].
      * destruct (decide (_ = ∅)); [by apply elem_of_nil in H|].
        by apply list_elem_of_singleton in H.
      * destruct (text reply) as [t0|]; simpl in H;
          [|by apply elem_of_nil in H].
        destruct (truthy t0); [|by apply elem_of_nil in H].
        destruct (_ || _); [|by apply elem_of_nil in H].
        apply list_elem_of_singleton in H. by injection H as ->.
      * destruct (suggested_actions reply) as [a|];
          [|by apply elem_of_nil in H].
        destruct (decide (a = [])); [by apply elem_of_nil in H|].
        by apply list_elem_of_singleton in H.
  - split.
    + unfold on_typing.
      destruct (as_dict _ _) as [cd|]; [|by intros ?%elem_of_nil].
      destruct (text reply) as [t0|]; simpl.
      * destruct (_ && _); simpl.
        { intros H. by apply list_elem_of_singleton in H. }
        destruct (_ && _); simpl; [|by intros ?%elem_of_nil].
        intros H. apply list_elem_of_singleton in H. by injection H as ->.
      * rewrite !andb_false_r. by intros ?%elem_of_nil.
    + unfold on_typing.
      destruct (as_dict _ _) as [cd|]; [|by intros ?%elem_of_nil].
      destruct (_ && _); simpl.
      { intros H. by apply list_elem_of_singleton in H. }
      destruct (_ && _); simpl; [|by intros ?%elem_of_nil].
      intros H. by apply list_elem_of_singleton in H.
  - assert (∀ e, e ∈ on_event reply →
                 (∃ th, e = Thought th) ∨ (∃ sr, e = SearchResult sr)) as He.
    { intros e. unfold on_event.
      destruct (as_dict _ _) as [v|]; [|by intros ?%elem_of_nil].
      rewrite elem_of_app. intros [H|H].
      - destruct (truthy_opt (thought v)); [|by apply elem_of_nil in H].
        apply list_elem_of_singleton in H. left. by eexists.
      - destruct (as_dict _ (observation v)) as [o|];
          [|by apply elem_of_nil in H].
        destruct (as_dict _ (search_result o)) as [so|];
          [|by apply elem_of_nil in H].
        revert H. generalize 0.
        induction (default [] (Client.search_results so)) as [|item l IH];
          intros n H; simpl in H; [by apply elem_of_nil in H|].
        destruct item as [res|]; [|by apply (IH (S n))].
        apply elem_of_cons in H as [->|H]; [right; by eexists|].
        by apply (IH (S n)). }
    split; intros H; by destruct (He _ H) as [[? ?]|[? ?]].
  - split; intros H; by apply list_elem_of_singleton in H.
  - split; by intros ?%elem_of_nil.
Qed.

(** ** The consumer loop, continued *)

Module AppCoverage.

Section WithDigits.

Variable decimal : N -> option N.

(** What one pass of the loop body does to the locals. *)
Lemma on_tuple_fields st e st' :
  on_tuple decimal st e = Some st' →
  thoughts st' = thoughts st ++ thoughts_of [e]
  ∧ suggestions st'
    = match e with Suggestion s => Some s | _ => suggestions st end
  ∧ got_streaming st'
    = got_streaming st || has_content [e]
  ∧ content_parts st'
    = match e with
      | Content chunk => content_parts st ++ [chunk]
      | FinalContent full =>
          if got_streaming st then content_parts st else [full]
      | _ => content_parts st
      end.
Proof.
  destruct e; simpl.
  - intros [= <-]. simpl. by rewrite app_nil_r, orb_false_r.
  - intros [= <-]. simpl. by rewrite orb_false_r.
  - intros [= <-]. simpl. by rewrite app_nil_r, orb_false_r.
  - intros [= <-]. simpl. by rewrite app_nil_r, orb_true_r.
  - destruct (got_streaming st) eqn:Hg; simpl; intros [= <-]; simpl;
      by rewrite app_nil_r, ?Hg.
  - destruct (decide _); [|done]. intros [= <-]. simpl.
    by rewrite app_nil_r, orb_false_r.
  - intros [= <-]. simpl. by rewrite app_nil_r, orb_false_r.
Qed.

Lemma consume_thoughts events st st' :
  consume decimal events st = Completed st' →
  thoughts st' = thoughts st ++ thoughts_of events.
Proof.
  revert st; induction events as [|e events IH]; intros st; simpl.
  - intros [= <-]. by rewrite app_nil_r.
  - destruct (on_tuple decimal st e) as [st1|] eqn:E; [|done].
    intros H. rewrite (IH _ H).
    destruct (on_tuple_fields _ _ _ E) as (-> & _).
    rewrite <- app_assoc. f_equal. unfold thoughts_of. simpl.
    by destruct e.
Qed.

Lemma consume_suggestions events st st' :
  consume decimal events st = Completed st' →
  suggestions st'
  = match last (suggestions_of events) with
    | Some s => Some s
    | None => suggestions st
    end.
Proof.
  revert st; induction events as [|e events IH]; intros st; simpl.
  - by intros [= <-].
  - destruct (on_tuple decimal st e) as [st1|] eqn:E; [|done].
    intros H. rewrite (IH _ H).
    destruct (on_tuple_fields _ _ _ E) as (_ & -> & _).
    destruct e; simpl; try done.
    rewrite last_cons. by destruct (last _).
Qed.

Lemma consume_content_streaming events st st' :
  got_streaming st = true →
  consume decimal events st = Completed st' →
  content_parts st' = content_parts st ++ chunks_of events.
Proof.
  revert st; induction events as [|e events IH]; intros st Hg; simpl.
  - intros [= <-]. by rewrite app_nil_r.
  - destruct (on_tuple decimal st e) as [st1|] eqn:E; [|done].
    intros H.
    destruct (on_tuple_fields _ _ _ E) as (_ & _ & Hg1 & Hparts).
    rewrite Hg in Hg1, Hparts. simpl in Hg1.
    rewrite (IH st1 Hg1 H), Hparts.
    destruct e; simpl; try done. by rewrite <- app_assoc.
Qed.

Lemma consume_content_parts events st st' :
  got_streaming st = false →
  consume decimal events st = Completed st' →
  content_parts st'
  = match last (finals_of (before_streaming events)) with
    | Some full => [full]
    | None => content_parts st
    end ++ chunks_of events.
Proof.
  revert st; induction events as [|e events IH]; intros st Hg; simpl.
  - intros [= <-]. by rewrite app_nil_r.
  - destruct (on_tuple decimal st e) as [st1|] eqn:E; [|done].
    intros H.
    destruct (on_tuple_fields _ _ _ E) as (_ & _ & Hg1 & Hparts).
    rewrite Hg in Hg1, Hparts. simpl in Hg1.
    destruct e; simpl in *;
      try (rewrite (IH st1 Hg1 H), Hparts; done).
    + rewrite (consume_content_streaming events st1 st' Hg1 H), Hparts.
      by rewrite <- app_assoc.
    + rewrite (IH st1 Hg1 H), Hparts, last_cons. by destruct (last _).
Qed.

Lemma on_tuple_citations_again st st' m :
  on_tuple decimal st (Citations m) = Some st' →
  on_tuple decimal st' (Citations m) = Some st'.
Proof.
  simpl. destruct (decide _) as [Hall|]; [|done]. intros [= <-]. simpl.
  rewrite decide_True by done. f_equal. f_equal.
  by rewrite (assoc_L (∪)), (idemp_L (∪)).
Qed.

Lemma re_search_without_word s :
  contains (lit "search") s = false → re_search decimal s = None.
Proof.
  induction s as [|c s IH]; intros Hc.
  - reflexivity.
  - cbn [contains] in Hc. cbn [re_search]. unfold search_at.
    destruct (strip_prefix (lit "search") (c :: s)); [done|].
    by apply IH.
Qed.

End WithDigits.

End AppCoverage.

Import AppCoverage.

(** X16. When the loop over the tuples of a turn runs to its end, the
    consumer has kept every thought and every search result, in the order
    received, and of the suggestions only the last one. *)
Theorem consume_accumulates
    (decimal : N -> option N) (events : list Event) (st : Turn) :
  consume decimal events start_of_turn = Completed st →
  thoughts st = thoughts_of events
  ∧ search_results st = search_results_of events
  ∧ suggestions st = last (suggestions_of events).
Proof.
  intros H.
  rewrite (consume_thoughts decimal _ _ _ H),
    (consume_search_results decimal _ _ _ H),
    (consume_suggestions decimal _ _ _ H).
  simpl. split; [done|]. split; [done|]. by destruct (last _).
Qed.

Definition sample_turn : list Event :=
  [Suggestion (lit "a"); SearchResult found_source; Suggestion (lit "b")].

Lemma consume_accumulates_witness :
  ∃ st,
    consume ascii_decimal sample_turn start_of_turn = Completed st
    ∧ suggestions st = Some (lit "b")
    ∧ search_results st = [found_source].
Proof.
  eexists. split; [vm_compute; reflexivity|].
  destruct (consume_accumulates ascii_decimal sample_turn _
              ltac:(vm_compute; reflexivity)) as (_ & Hs & Hl).
  split; [exact Hl|exact Hs].
Defined.

(** X17. When the loop runs to its end, the accumulated text of the turn
    is made of the last ['final_content'] text received before the first
    ['content'] chunk, if there is one, followed by every ['content']
    chunk in the order received: no chunk is lost, and a final content
    that arrives before the chunks stays in front of them. *)
Theorem consume_content
    (decimal : N -> option N) (events : list Event) (st : Turn) :
  consume decimal events start_of_turn = Completed st →
  content_parts st
  = match last (finals_of (before_streaming events)) with
    | Some full => [full]
    | None => []
    end ++ chunks_of events
  ∧ raw_content st
    = default [] (last (finals_of (before_streaming events)))
      ++ concat (chunks_of events).
Proof.
  intros H. unfold raw_content.
  rewrite (consume_content_parts decimal events start_of_turn st eq_refl H).
  simpl.
  split; [done|]. by destruct (last _).
Qed.

Definition final_then_chunks : list Event :=
  [FinalContent (lit "Full. "); Content (lit "Hel"); FinalContent (lit "x");
   Content (lit "lo")].

Lemma consume_content_witness :
  ∃ st,
    consume ascii_decimal final_then_chunks start_of_turn = Completed st
    ∧ raw_content st = lit "Full. Hello".
Proof.
  eexists. split; [vm_compute; reflexivity|].
  exact (proj2 (consume_content ascii_decimal final_then_chunks _
                  ltac:(vm_compute; reflexivity))).
Defined.

(** X18. Merging two consecutive ['citations'] tuples with the same
    content leaves the loop as merging one of them does: in the same state
    when they are merged, left at the same point when the first raises. *)
Theorem citations_merge_idempotent
    (decimal : N -> option N) (before : list Event) (m : gmap str Meta) :
  consume decimal (before ++ [Citations m; Citations m]) start_of_turn
  = consume decimal (before ++ [Citations m]) start_of_turn.
Proof.
  rewrite !consume_app.
  destruct (consume decimal before start_of_turn) as [st|st]; [|done].
  cbn [consume].
  destruct (on_tuple decimal st (Citations m)) as [st1|] eqn:E; [|done].
  by rewrite (on_tuple_citations_again decimal _ _ _ E).
Qed.

(** X19. A citation whose identifier does not contain the word ["search"]
    is never cross-linked: when its tuple is merged, it is stored in the
    table exactly as it came, whatever search results were seen before. *)
Theorem citations_without_search_stored
    (decimal : N -> option N) (before : list Event) (m : gmap str Meta)
    (cite_id : str) (cite_info : Meta) (st' : Turn) :
  m !! cite_id = Some cite_info →
  contains (lit "search") cite_id = false →
  consume decimal (before ++ [Citations m]) start_of_turn = Completed st' →
  citation_metadata st' !! cite_id = Some cite_info.
Proof.
  intros Hm Hc. rewrite consume_snoc.
  destruct (consume decimal before start_of_turn) as [st|st]; [|done].
  destruct (on_tuple decimal st (Citations m)) as [st1|] eqn:E; [|done].
  intros [= <-].
  rewrite (on_tuple_citations_lookup decimal _ _ _ cite_id E), Hm.
  apply cross_link_untouched. left. by apply re_search_without_word.
Qed.

Lemma citations_without_search_stored_witness :
  ∃ st',
    consume ascii_decimal
      ([SearchResult found_source] ++ [Citations first_record])
      start_of_turn = Completed st'
    ∧ citation_metadata st' !! lit "doc7"
      = Some {| meta_url := Some (lit "https://a");
                meta_title := Some (lit "A") |}.
Proof.
  eexists. split; [vm_compute; reflexivity|].
  exact (citations_without_search_stored ascii_decimal
           [SearchResult found_source] first_record (lit "doc7") _ _
           ltac:(vm_compute; reflexivity) ltac:(vm_compute; reflexivity)
           ltac:(vm_compute; reflexivity)).
Defined.

(** X20. Without a conversation, [process_response] returns the error
    text as the answer, with no citation and no suggestion. *)
Theorem process_response_without_conversation
    (decimal : N -> option N) (client : CopilotStudioClient) (prompt : str) :
  truthy_opt (_conversation_id client) = false →
  process_response decimal client prompt
  = Returned (lit "Error: No active conversation.") [] None.
Proof.
  intros H. unfold process_response, send_message.
  destruct (_conversation_id client) as [c|].
  - simpl in H. rewrite H. vm_compute. reflexivity.
  - vm_compute. reflexivity.
Qed.

Lemma process_response_without_conversation_witness :
  process_response ascii_decimal (init (sdk Broken Broken)) (lit "hello")
  = Returned (lit "Error: No active conversation.") [] None.
Proof.
  apply (process_response_without_conversation ascii_decimal
           (init (sdk Broken Broken)) (lit "hello")).
  reflexivity.
Defined.

(** X21. When the transport fails before the conversation ends, after
    activities whose tuples the loop consumes without raising, the failure
    of the transport propagates out of [process_response] once all those
    tuples have been consumed: no answer is returned, and the locals
    reached are those after the last of the tuples. *)
Theorem process_response_transport_failure
    (decimal : N -> option N) (client : CopilotStudioClient)
    (prompt conversation_id : str) (acts : list Activity) (st : Turn) :
  _conversation_id client = Some conversation_id →
  truthy conversation_id = true →
  sdk_ask_question (_client client) prompt conversation_id
    = deliver_all acts Broken →
  Forall (fun a => type a ≠ end_of_conversation) acts →
  consume decimal (tuples_for acts) start_of_turn = Completed st →
  process_response decimal client prompt = Raised TransportError st.
Proof.
  intros Hid Hset Hask Hacts Hst.
  unfold process_response, send_message. rewrite Hid, Hset, Hask.
  rewrite pump_deliver_all by done. cbn [yielded ending pump].
  by rewrite app_nil_r, Hst.
Qed.

Lemma process_response_transport_failure_witness :
  ∃ st,
    process_response ascii_decimal failing_client (lit "hi")
    = Raised TransportError st
    ∧ content_parts st = [lit "Hel"]
    ∧ content_placeholder st = Some (lit "Hel").
Proof.
  eexists. split.
  - apply (process_response_transport_failure ascii_decimal failing_client
             (lit "hi") (lit "conv-1") [delta (lit "Hel")]).
    + reflexivity.
    + reflexivity.
    + reflexivity.
    + repeat constructor; simpl; discriminate.
    + vm_compute. reflexivity.
  - split; reflexivity.
Defined.

(** X22. When the send ends normally, the loop has run to its end, and the
    accumulated text holds no U+E200 character, [process_response] returns
    that text as it is, with no references block and no citation, together
    with the last suggestion. *)
Theorem process_response_without_markers
    (decimal : N -> option N) (client : CopilotStudioClient) (prompt : str)
    (st : Turn) :
  consume decimal (yielded (send_message client prompt)) start_of_turn
    = Completed st →
  ending (send_message client prompt) = StopAsyncIteration →
  has_char open_char (raw_content st) = false →
  process_response decimal client prompt
  = Returned (raw_content st) [] (suggestions st).
Proof.
  intros Hst Hend Hc. unfold process_response. rewrite Hst, Hend.
  by rewrite (tokens_without_open_clean (raw_content st) true
                (Some (citation_metadata st)) Hc).
Qed.

Lemma process_response_without_markers_witness :
  process_response ascii_decimal streaming_client (lit "hi")
  = Returned (lit "Hello") [] None.
Proof.
  apply (process_response_without_markers ascii_decimal streaming_client
           (lit "hi")
           (reached (consume ascii_decimal
                       (yielded (send_message streaming_client (lit "hi")))
                       start_of_turn))).
  - vm_compute. reflexivity.
  - reflexivity.
  - vm_compute. reflexivity.
Defined.

Module SearchIndexFacts.

(** The number a string of ASCII digits denotes. *)
Definition decimal_value (digits : str) : N :=
  fold_left (fun acc c => 10 * acc + (c - 48))%N digits 0%N.

Definition ascii_digit (c : N) : Prop := (48 <= c <= 57)%N.

Definition letter_h : N := 104%N.

Section WithDigits.

Variable decimal : N -> option N.
Hypothesis ascii_digits : has_ascii_digits decimal.
Hypothesis h_no_digit : decimal letter_h = None.

Lemma digits_to_end_digits digits :
  Forall ascii_digit digits →
  digits_to_end decimal digits
  = Some (List.map (fun c => c - 48)%N digits).
Proof using ascii_digits.
  induction 1 as [|c digits Hc _ IH]; simpl; [done|].
  by rewrite (ascii_digits c Hc), IH.
Qed.

Lemma digits_to_end_blocked a digits :
  digits ≠ [] → digits_to_end decimal (a ++ letter_h :: digits) = None.
Proof using h_no_digit.
  intros Hne. induction a as [|c a IH].
  - simpl. rewrite h_no_digit. by destruct digits.
  - cbn [app digits_to_end]. rewrite IH.
    assert (at_dollar (c :: a ++ letter_h :: digits) = false) as ->.
    { by destruct a. }
    by destruct (decimal c).
Qed.

Lemma strip_prefix_long p u v :
  length p ≤ length u →
  strip_prefix p (u ++ v)
  = match strip_prefix p u with Some r => Some (r ++ v) | None => None end.
Proof.
  revert u; induction p as [|a p IH]; intros u Hlen; simpl; [done|].
  destruct u as [|b u]; simpl in *; [lia|].
  destruct (N.eqb a b); [|done]. apply IH. lia.
Qed.

Lemma search_at_blocked c pre digits :
  digits ≠ [] →
  search_at decimal ((c :: pre) ++ lit "search" ++ digits) = None.
Proof using h_no_digit.
  intros Hne. unfold search_at.
  change (lit "search" ++ digits)
    with (lit "searc" ++ letter_h :: digits).
  rewrite app_assoc, strip_prefix_long
    by (rewrite length_app; simpl; lia).
  destruct (strip_prefix _ _) as [r|]; [|done].
  by rewrite digits_to_end_blocked.
Qed.

Lemma search_at_final digits :
  digits ≠ [] → Forall ascii_digit digits →
  search_at decimal (lit "search" ++ digits)
  = Some (List.map (fun c => c - 48)%N digits).
Proof using ascii_digits.
  intros Hne Hd. unfold search_at.
  assert (strip_prefix (lit "search") (lit "search" ++ digits) = Some digits)
    as -> by (vm_compute; reflexivity).
  rewrite digits_to_end_digits by done. by destruct digits.
Qed.

Lemma int_of_digits_value digits acc :
  fold_left (fun a d => 10 * a + d)%N
    (List.map (fun c => c - 48)%N digits) acc
  = fold_left (fun a c => 10 * a + (c - 48))%N digits acc.
Proof.
  revert acc; induction digits as [|c digits IH]; intros acc; simpl; [done|].
  apply IH.
Qed.

(** The group that [re.search] returns for an identifier that ends in
    ["search"] and ASCII digits. *)
Lemma re_search_suffix pre digits :
  digits ≠ [] → Forall ascii_digit digits →
  re_search decimal (pre ++ lit "search" ++ digits)
  = Some (List.map (fun c => c - 48)%N digits).
Proof using ascii_digits h_no_digit.
  intros Hne Hd. induction pre as [|c pre IH].
  - destruct digits as [|d digits]; [done|].
    change ([] ++ lit "search" ++ d :: digits)
      with (115%N :: (lit "earch" ++ d :: digits)).
    cbn [re_search].
    change (115%N :: (lit "earch" ++ d :: digits))
      with (lit "search" ++ d :: digits).
    by rewrite search_at_final.
  - change ((c :: pre) ++ lit "search" ++ digits)
      with (c :: (pre ++ lit "search" ++ digits)).
    cbn [re_search].
    change (c :: (pre ++ lit "search" ++ digits))
      with ((c :: pre) ++ lit "search" ++ digits).
    by rewrite search_at_blocked.
Qed.

Lemma search_index_suffix pre digits :
  digits ≠ [] → Forall ascii_digit digits →
  (N.of_nat (length digits) <= int_max_str_digits)%N →
  search_index decimal (pre ++ lit "search" ++ digits)
  = Some (decimal_value digits).
Proof using ascii_digits h_no_digit.
  intros Hne Hd Hlen. unfold search_index.
  rewrite re_search_suffix by done. simpl. unfold int_of_digits.
  rewrite length_map. rewrite (proj2 (N.leb_le _ _) Hlen).
  unfold decimal_value. by rewrite int_of_digits_value.
Qed.

Lemma cross_link_oversized srs pre digits cite_info :
  Forall ascii_digit digits →
  (int_max_str_digits < N.of_nat (length digits))%N →
  truthy_opt (meta_url cite_info) = false →
  cross_link decimal srs (pre ++ lit "search" ++ digits) cite_info = None.
Proof using ascii_digits h_no_digit.
  intros Hd Hlen Hurl. apply cross_link_raises.
  exists (List.map (fun c => c - 48)%N digits).
  rewrite length_map. split; [|done].
  apply re_search_suffix; [|done]. intros ->. simpl in Hlen. lia.
Qed.

End WithDigits.

Lemma ascii_decimal_has_ascii_digits : has_ascii_digits ascii_decimal.
Proof.
  intros c Hc. unfold ascii_decimal.
  destruct (N.leb_spec 48 c); [|lia].
  destruct (N.leb_spec c 57); [|lia]. reflexivity.
Qed.

End SearchIndexFacts.

Import SearchIndexFacts.

(** X23. For an identifier that ends in ["search"] followed by one or more
    ASCII digits, no more than [int] converts, whatever precedes, the
    index looked up among the search results is the number those digits
    denote: when the tuple is merged, a citation with such an identifier
    and an empty url holds the url of the first search result seen with
    that index. (The digit table is any one that holds the ASCII digits
    and does not count the letter h as a digit.) *)
Theorem cross_link_by_digits
    (decimal : N -> option N) (before : list Event) (m : gmap str Meta)
    (pre digits : str) (cite_info : Meta) (sr : SearchInfo) (st' : Turn) :
  has_ascii_digits decimal →
  decimal letter_h = None →
  digits ≠ [] →
  Forall ascii_digit digits →
  (N.of_nat (length digits) <= int_max_str_digits)%N →
  m !! (pre ++ lit "search" ++ digits) = Some cite_info →
  truthy_opt (meta_url cite_info) = false →
  first_with_index (decimal_value digits) (search_results_of before)
    = Some sr →
  consume decimal (before ++ [Citations m]) start_of_turn = Completed st' →
  search_index decimal (pre ++ lit "search" ++ digits)
    = Some (decimal_value digits)
  ∧ ∃ stored,
      citation_metadata st' !! (pre ++ lit "search" ++ digits) = Some stored
      ∧ meta_url stored = Some (url sr).
Proof.
  intros Hd Hh Hne Hdigits Hlen Hm Hurl Hsr.
  pose proof (search_index_suffix decimal Hd Hh pre digits Hne Hdigits Hlen)
    as Hidx.
  rewrite consume_snoc.
  destruct (consume decimal before start_of_turn) as [st|st] eqn:Hst;
    [|done].
  destruct (on_tuple decimal st (Citations m)) as [st1|] eqn:E; [|done].
  intros [= <-]. split; [exact Hidx|].
  rewrite (on_tuple_citations_lookup decimal _ _ _ _ E), Hm.
  pose proof (consume_search_results decimal _ _ _ Hst) as Hsrs.
  simpl in Hsrs. rewrite Hsrs.
  rewrite (cross_link_index decimal _ _ _ _ Hidx Hurl), Hsr.
  by eexists.
Qed.

Definition tenth_source : SearchInfo :=
  {| index := 10; url := lit "https://ten"; title := lit "Ten";
     source_id := [] |}.

Definition tenth_citation : gmap str Meta :=
  {[ lit "search1turn5search10" :=
       {| meta_url := Some []; meta_title := Some (lit "Doc") |} ]}.

Lemma cross_link_by_digits_witness :
  search_index ascii_decimal (lit "search1turn5search10") = Some 10%N.
Proof.
  refine (proj1 (cross_link_by_digits ascii_decimal
                   [SearchResult found_source; SearchResult tenth_source]
                   tenth_citation (lit "search1turn5") (lit "10")
                   {| meta_url := Some []; meta_title := Some (lit "Doc") |}
                   tenth_source
                   (reached (consume ascii_decimal
                               ([SearchResult found_source;
                                 SearchResult tenth_source]
                                  ++ [Citations tenth_citation])
                               start_of_turn))
                   ascii_decimal_has_ascii_digits eq_refl _ _ _ _ _ _ _)).
  - discriminate.
  - change (lit "10") with [49%N; 48%N].
    constructor; [unfold ascii_digit; lia|].
    constructor; [unfold ascii_digit; lia|]. constructor.
  - vm_compute. discriminate.
  - vm_compute. reflexivity.
  - reflexivity.
  - reflexivity.
  - vm_compute. reflexivity.
Defined.

(** X24. A ['citations'] tuple that holds, with an empty url, an
    identifier ending in ["search"] and more ASCII digits than [int]
    converts (4300) makes the loop body raise [ValueError]: the loop is
    left with the locals as they were before the tuple, nothing of the
    tuple is merged and the tuples after it are not consumed. *)
Theorem citations_oversized_index
    (decimal : N -> option N) (before after : list Event)
    (m : gmap str Meta) (pre digits : str) (cite_info : Meta) (st : Turn) :
  has_ascii_digits decimal →
  decimal letter_h = None →
  Forall ascii_digit digits →
  (int_max_str_digits < N.of_nat (length digits))%N →
  m !! (pre ++ lit "search" ++ digits) = Some cite_info →
  truthy_opt (meta_url cite_info) = false →
  consume decimal before start_of_turn = Completed st →
  consume decimal (before ++ Citations m :: after) start_of_turn
  = Aborted st.
Proof.
  intros Hd Hh Hdigits Hlen Hm Hurl Hst.
  rewrite consume_app, Hst. cbn [consume].
  assert (on_tuple decimal st (Citations m) = None) as ->; [|done].
  apply on_tuple_citations_raises.
  exists (pre ++ lit "search" ++ digits), cite_info. split; [done|].
  by apply cross_link_oversized.
Qed.

Definition long_digits : str := replicate 4301 49%N.

Definition oversized_citation : gmap str Meta :=
  {[ lit "search" ++ long_digits :=
       {| meta_url := None; meta_title := Some (lit "Doc") |} ]}.

Lemma citations_oversized_index_witness :
  consume ascii_decimal
    ([Content (lit "Hel")]
       ++ Citations oversized_citation :: [Content (lit "lo")])
    start_of_turn
  = Aborted (reached (consume ascii_decimal [Content (lit "Hel")]
                        start_of_turn)).
Proof.
  apply (citations_oversized_index ascii_decimal [Content (lit "Hel")]
           [Content (lit "lo")] oversized_citation [] long_digits
           {| meta_url := None; meta_title := Some (lit "Doc") |}).
  - apply ascii_decimal_has_ascii_digits.
  - reflexivity.
  - apply Forall_replicate. unfold ascii_digit. lia.
  - unfold long_digits. rewrite length_replicate. vm_compute. reflexivity.
  - apply lookup_singleton_eq.
  - reflexivity.
  - reflexivity.
Defined.
